(** * Network genealogies: lineage reconciliation of a batch of networks

    A verification development for the process function of
    [packages/db/src/meta/graph/types.ts] that loads NetworkGenealogy
    records: [collectNetworks] (sort the batch, pair neighbours),
    [findRelation] (iterative candidate search against the record store),
    [findMatchingCandidateOnChain] (confirmation of candidates against the
    connected chain) and [process] (the orchestration and the final load).

    The source functions are generators: they yield descriptions of
    requests and are resumed with the answers.  They are embedded as
    interaction trees over the request type [ProcessE]; a run against an
    environment is computed by [run], which records every request with its
    answer. *)

From Stdlib Require Import String List ZArith Lia Bool Sorting.Sorted
  Sorting.Permutation Arith.Wf_nat.
From ITree Require Import ITree Eq.Shallow.
Import ListNotations.
Local Open Scope string_scope.
Local Open Scope list_scope.
Local Open Scope Z_scope.

Set Implicit Arguments.

(* ===================================================================== *)
(** * Data model *)
(* ===================================================================== *)

(** [historicBlock { hash height }] of a Network resource. *)
Record HistoricBlock : Type := {
  hash : string;
  height : Z
}.

(** [Pick<Resource<"networks">, "id" | "historicBlock">]: the part of a
    Network resource the process function reads.  Its [id] field is
    [network_id] here, as [id] names the field of [IdObject]. *)
Record Network : Type := {
  network_id : string;
  historicBlock : HistoricBlock
}.

(** [IdObject<"networks">]: a reference to a resource. *)
Record IdObject : Type := {
  id : string
}.

(** Modelled from the spec: [toIdObject] is imported from
    [@truffle/db/resources], which is not among the sources.  The data
    model calls its result a network reference: the reference keeps the
    store-assigned identifier of the resource and nothing else, as the type
    [IdObject<"networks">] of the source says. *)
Definition toIdObject (resource : Network) : IdObject :=
  {| id := network_id resource |}.

(** [Input<"networkGenealogies">]. *)
Record NetworkGenealogyInput : Type := {
  ancestor : IdObject;
  descendant : IdObject
}.

(** The [options] argument of [process] and [collectNetworks]: a sparse
    batch ([undefined] is [None]) and the optional [disableIndex] flag. *)
Module Options.
Record t : Type := mk {
  networks : list (option Network);
  disableIndex : option bool
}.
End Options.

(** The result of [collectNetworks]. *)
Record Collected : Type := {
  networks : list IdObject;
  networkGenealogies : list NetworkGenealogyInput
}.

(* ===================================================================== *)
(** * collectNetworks *)
(* ===================================================================== *)

(** [.filter(network => !!network)] *)
Fixpoint present (batch : list (option Network)) : list Network :=
  match batch with
  | [] => []
  | Some network :: rest => network :: present rest
  | None :: rest => present rest
  end.

(** [.sort((a, b) => a.historicBlock.height - b.historicBlock.height)].
    [Array.prototype.sort] is stable, and the comparator is a consistent
    order on integer heights, so the result is the stable ascending sort of
    the array.  It is computed here by insertion from the right: an element
    goes in front of the first element that is not lower than it. *)
Fixpoint insertByHeight (a : Network) (sorted : list Network) : list Network :=
  match sorted with
  | [] => [a]
  | b :: rest =>
      if height (historicBlock a) - height (historicBlock b) <=? 0
      then a :: b :: rest
      else b :: insertByHeight a rest
  end.

Fixpoint sortByHeight (l : list Network) : list Network :=
  match l with
  | [] => []
  | a :: rest => insertByHeight a (sortByHeight rest)
  end.

(** The array the source sorts and then maps to references. *)
Definition sortedBatch (batch : list (option Network)) : list Network :=
  sortByHeight (present batch).

(** [ancestor.id === descendant.id] *)
Definition same_id (a b : IdObject) : bool := String.eqb (id a) (id b).

(** The accumulator of the reduction. *)
Record ResultAccumulator : Type := {
  acc_ancestor : IdObject;
  acc_networkGenealogies : list NetworkGenealogyInput
}.

(** The callback of [networks.slice(1).reduce(...)]. *)
Definition reducer (acc : ResultAccumulator) (descendant : IdObject)
  : ResultAccumulator :=
  {| acc_ancestor := descendant;
     acc_networkGenealogies :=
       if same_id (acc_ancestor acc) descendant
       then acc_networkGenealogies acc
       else acc_networkGenealogies acc
              ++ [ {| ancestor := acc_ancestor acc;
                      descendant := descendant |} ] |}.

(** The pairwise walk over the sorted references:
    [networks.slice(1).reduce(reducer, initialAccumulator)]. *)
Definition pairwise (networks : list IdObject) : list NetworkGenealogyInput :=
  match networks with
  | [] => []
  | first :: rest =>
      acc_networkGenealogies
        (fold_left reducer rest
           {| acc_ancestor := first; acc_networkGenealogies := [] |})
  end.

Definition collectNetworks (options : Options.t) : Collected :=
  let networks := map toIdObject (sortedBatch (Options.networks options)) in
  if Z.of_nat (List.length networks) <? 1
  then {| networks := []; networkGenealogies := [] |}
  else {| networks := networks; networkGenealogies := pairwise networks |}.

(* ===================================================================== *)
(** * Requests, answers and processes *)
(* ===================================================================== *)

(** [relation: "ancestor" | "descendant"] *)
Variant Relation : Type := Ancestor | Descendant.

(** [DataModel.CandidateSearchResult]: what one query for possibly-related
    networks returns (the selection [networks { id historicBlock { hash
    height } }], [alreadyTried]).  The field [networks] is [candidates]
    here, the name of the variable [findRelation] assigns it to;
    [alreadyTried] is the [string[]] that [findRelation] declares. *)
Record CandidateSearchResult : Type := {
  candidates : list Network;
  alreadyTried : list string
}.

(** The answer to [eth_getBlockByNumber]: [response] may be missing, and
    [response.result] is missing when there is no block at the height. *)
Module Web3.
Record Block : Type := { hash : string }.
Record Response : Type := { result : option Block }.
End Web3.

(** What a generator can fail with.  The first two are the errors of the
    two collaborators; [TypeError] is what JavaScript throws when a
    property of [undefined] is read. *)
Variant Exn : Type := StoreQueryError | ChainQueryError | TypeError.

(** Modelled from the spec: the interpreter that runs the generators, and
    [resources.get] and [resources.load] of [@truffle/db/process], are not
    among the sources.  The spec's Effect Interpreter performs the request
    a generator yields and resumes the generator with the answer; a failed
    external call is surfaced to the generator as an exception at the
    point of the request.  A request is indexed here by the type of its
    answer: [inl e] is the exception raised at the [yield], [inr x] the
    value the [yield] evaluates to.
    - [ResourcesGet relation id alreadyTried disableIndex]: the request of
      [resources.get("networks", id, fragment)], where the fragment asks
      for [possibleAncestors] or [possibleDescendants] with the arguments
      [alreadyTried] and, when the flag is set, [disableIndex: true].  The
      name of the fragment (with the counter [fragmentIndex]) only names
      it and is left out.
    - [Web3Request height]: [{ type: "web3", method: "eth_getBlockByNumber",
      params: [height, false] }].
    - [ResourcesLoad inputs]: [resources.load("networkGenealogies",
      inputs)]. *)
Variant ProcessE : Type -> Type :=
| ResourcesGet (relation : Relation) (networkId : string)
    (tried : list string) (disableIndex : bool)
  : ProcessE (Exn + CandidateSearchResult)
| Web3Request (height : Z)
  : ProcessE (Exn + option Web3.Response)
| ResourcesLoad (inputs : list NetworkGenealogyInput)
  : ProcessE (Exn + list IdObject).

(** [Process<T>]: a generator that yields requests and either returns a
    [T] or throws. *)
Definition Process (T : Type) : Type := itree ProcessE (Exn + T).

Definition ret {T} (v : T) : Process T := Ret (inr v).

Definition throw {T} (e : Exn) : Process T := Ret (inl e).

(** Sequencing: an exception of the first part skips the rest. *)
Definition bind {A B} (m : Process A) (k : A -> Process B) : Process B :=
  ITree.bind m (fun r => match r with
                         | inl e => Ret (inl e)
                         | inr a => k a
                         end).

(** [try { m } catch (error) { handler(error) }] *)
Definition try_catch {A} (m : Process A) (handler : Exn -> Process A)
  : Process A :=
  ITree.bind m (fun r => match r with
                         | inl e => handler e
                         | inr a => Ret (inr a)
                         end).

(** [yield request] (and [yield*] of the two [resources] generators). *)
Definition yield {X} (request : ProcessE (Exn + X)) : Process X :=
  ITree.trigger request.

(** [do { s = body(s) } while (...)]: the body either goes round again with
    a new state ([inl]) or returns ([inr]); an exception leaves the loop. *)
Definition do_while {S T} (body : S -> Process (S + T)) (init : S)
  : Process T :=
  ITree.iter
    (fun s => ITree.map
                (fun r => match r with
                          | inl e => inr (inl e)
                          | inr (inl s') => inl s'
                          | inr (inr v) => inr (inr v)
                          end)
                (body s))
    init.

Declare Scope process_scope.
Delimit Scope process_scope with process.
Notation "'let*' x ':=' m 'in' k" :=
  (bind m (fun x => k))
  (at level 10, x binder, m at level 100, k at level 200) : process_scope.
Local Open Scope process_scope.

(* ===================================================================== *)
(** * The generators *)
(* ===================================================================== *)

(** Truthiness of the optional flag: [disableIndex ? ... : ...]. *)
Definition truthy (flag : option bool) : bool :=
  match flag with
  | Some true => true
  | _ => false
  end.

(** [queryNextPossiblyRelatedNetworks].  [network] is [None] when the
    caller passes [undefined].  Inside [try], reading [network.id] of
    [undefined] throws, and so does a failed query; the [catch] block logs
    the error and goes on with [result] still [undefined].  After it,
    [result.networks] is read for the log line: on [undefined] that throws
    a [TypeError], outside of any [try]. *)
Definition queryNextPossiblyRelatedNetworks (relation : Relation)
  (network : option IdObject) (tried : list string)
  (disableIndex : option bool) : Process CandidateSearchResult :=
  let* result :=
    try_catch
      (match network with
       | None => throw TypeError
       | Some n =>
           let* r := yield (ResourcesGet relation (id n) tried
                              (truthy disableIndex)) in
           ret (Some r)
       end)
      (fun _error => ret None) in
  match result with
  | None => throw TypeError
  | Some r => ret r
  end.

(** [response && response.result &&
     response.result.hash === candidate.historicBlock.hash] *)
Definition confirms (response : option Web3.Response) (candidate : Network)
  : bool :=
  match response with
  | None => false
  | Some r =>
      match Web3.result r with
      | None => false
      | Some block =>
          String.eqb (Web3.hash block) (hash (historicBlock candidate))
      end
  end.

(** [findMatchingCandidateOnChain]: the [for ... of] loop with its early
    [return]. *)
Fixpoint findMatchingCandidateOnChain (candidates : list Network)
  : Process (option IdObject) :=
  match candidates with
  | [] => ret None
  | candidate :: rest =>
      let* response :=
        yield (Web3Request (height (historicBlock candidate))) in
      if confirms response candidate
      then ret (Some (toIdObject candidate))
      else findMatchingCandidateOnChain rest
  end.

(** One round of the [do ... while] loop of [findRelation], from the
    current [alreadyTried]: [inl] goes round again with the new list
    ([candidates.length > 0]), [inr] returns. *)
Definition searchRound (relation : Relation) (network : option IdObject)
  (disableIndex : option bool) (tried : list string)
  : Process (list string + option IdObject) :=
  let* found :=
    queryNextPossiblyRelatedNetworks relation network tried disableIndex in
  let* matchingCandidate :=
    findMatchingCandidateOnChain (candidates found) in
  match matchingCandidate with
  | Some m => ret (inr (Some m))
  | None =>
      if 0 <? Z.of_nat (List.length (candidates found))
      then ret (inl (alreadyTried found))
      else ret (inr None)
  end.

(** [findRelation].  The state of the loop is [alreadyTried], which starts
    empty; [candidates] is assigned in every round before it is read. *)
Definition findRelation (relation : Relation) (network : option IdObject)
  (disableIndex : option bool) : Process (option IdObject) :=
  do_while (searchRound relation network disableIndex) [].

(** The body of [for (const network of networks)] in [process], with the
    array [networkGenealogies] it pushes to passed along. *)
Fixpoint forEachNetwork (disableIndex : option bool)
  (networks : list IdObject) (genealogies : list NetworkGenealogyInput)
  : Process (list NetworkGenealogyInput) :=
  match networks with
  | [] => ret genealogies
  | network :: rest =>
      let* foundAncestor :=
        findRelation Ancestor (Some network) disableIndex in
      let genealogies :=
        match foundAncestor with
        | Some a =>
            genealogies ++ [ {| ancestor := a; descendant := network |} ]
        | None => genealogies
        end in
      let* foundDescendant :=
        findRelation Descendant (Some network) disableIndex in
      let genealogies :=
        match foundDescendant with
        | Some d =>
            genealogies ++ [ {| ancestor := network; descendant := d |} ]
        | None => genealogies
        end in
      forEachNetwork disableIndex rest genealogies
  end.

(** [process].  [None] is the [undefined] of the bare [return].  The
    result of the first [findRelation] is bound to a variable that is not
    read, and so is [latest], which costs no request and is left out. *)
Definition process (options : Options.t)
  : Process (option (list IdObject)) :=
  let disableIndex := Options.disableIndex options in
  if Z.of_nat (List.length (Options.networks options)) =? 0
  then ret None
  else
    let collected := collectNetworks options in
    let earliest := nth_error (networks collected) 0 in
    let* _ancestor := findRelation Ancestor earliest disableIndex in
    let* genealogies :=
      forEachNetwork disableIndex (networks collected)
        (networkGenealogies collected) in
    let* results := yield (ResourcesLoad genealogies) in
    ret (Some results).

(* ===================================================================== *)
(** * Running a process against an environment *)
(* ===================================================================== *)

(** One entry of the log: a request with the answer it got. *)
Variant Event : Type :=
| Queried (relation : Relation) (networkId : string) (tried : list string)
    (disableIndex : bool) (answer : Exn + CandidateSearchResult)
| Asked (height : Z) (answer : Exn + option Web3.Response)
| Loaded (inputs : list NetworkGenealogyInput) (answer : Exn + list IdObject).

Definition log {X} (request : ProcessE X) : X -> Event :=
  match request in ProcessE X return X -> Event with
  | ResourcesGet relation networkId tried disableIndex =>
      Queried relation networkId tried disableIndex
  | Web3Request height => Asked height
  | ResourcesLoad inputs => Loaded inputs
  end.

(** An environment: the store and the chain client, with a state [W] of
    their own, answering one request at a time. *)
Definition Env (W : Type) : Type := forall X, W -> ProcessE X -> W * X.

(** Modelled from the spec: the interpreter loop, which is not among the
    sources.  It performs each request in program order, one at a time,
    and resumes the generator with the answer; it retries nothing.
    [fuel] bounds the number of steps taken (requests and loop rounds);
    the result is the log so far, the state of the environment, and what
    the generator returned if it has finished ([None]: still running when
    the fuel ran out). *)
Fixpoint run {W R} (env : Env W) (fuel : nat) (w : W) (t : itree ProcessE R)
  : list Event * W * option R :=
  match observe t with
  | RetF r => ([], w, Some r)
  | TauF t' =>
      match fuel with
      | O => ([], w, None)
      | S fuel' => run env fuel' w t'
      end
  | VisF request k =>
      match fuel with
      | O => ([], w, None)
      | S fuel' =>
          let (w', answer) := env _ w request in
          let '(events, w'', r) := run env fuel' w' (k answer) in
          (log request answer :: events, w'', r)
      end
  end.

(** [Runs env w t events w' r]: from [w], the process [t] finishes with
    result [r], having exchanged [events] and left the environment in
    [w']. *)
Definition Runs {W R} (env : Env W) (w : W) (t : itree ProcessE R)
  (events : list Event) (w' : W) (r : R) : Prop :=
  exists fuel, run env fuel w t = (events, w', Some r).

(** [Always env w t Q]: [Q] holds of every prefix of the execution of [t]
    from [w], finished or not. *)
Definition Always {W R} (env : Env W) (w : W) (t : itree ProcessE R)
  (Q : list Event -> W -> option R -> Prop) : Prop :=
  forall fuel,
    let '(events, w', r) := run env fuel w t in Q events w' r.

(* ===================================================================== *)
(** * Vocabulary of the statements *)
(* ===================================================================== *)

(** ** Readings of lists and logs *)

(** Ascending order of heights. *)
Definition byHeight (a b : Network) : Prop :=
  height (historicBlock a) <= height (historicBlock b).

(** The neighbours of a list: [(l[i], l[i+1])] for every [i]. *)
Fixpoint adjacent {A} (l : list A) : list (A * A) :=
  match l with
  | a :: (b :: _) as rest => (a, b) :: adjacent rest
  | _ => []
  end.

(** The edge of a pair of neighbours. *)
Definition edge (pair : IdObject * IdObject) : NetworkGenealogyInput :=
  {| ancestor := fst pair; descendant := snd pair |}.

(** The two ends differ in id. *)
Definition distinct (pair : IdObject * IdObject) : bool :=
  negb (same_id (fst pair) (snd pair)).

(** No self-edge. *)
Definition noSelfEdge (e : NetworkGenealogyInput) : Prop :=
  id (ancestor e) <> id (descendant e).

(** No record is loaded by this entry. *)
Definition isSearch (e : Event) : Prop :=
  match e with
  | Loaded _ _ => False
  | _ => True
  end.

(** The store or chain request of this entry was answered, not failed. *)
Definition isAnswered (e : Event) : Prop :=
  match e with
  | Queried _ _ _ _ (inl _) => False
  | Asked _ (inl _) => False
  | _ => True
  end.

(** A store query that failed. *)
Definition isFailedQuery (e : Event) : Prop :=
  match e with
  | Queried _ _ _ _ (inl _) => True
  | _ => False
  end.

(** The inputs of the loads of a log, in order. *)
Fixpoint loads (events : list Event) : list (list NetworkGenealogyInput) :=
  match events with
  | [] => []
  | Loaded inputs _ :: rest => inputs :: loads rest
  | _ :: rest => loads rest
  end.

(** The store queries of a log, in order: the exclusion list each one
    sent, and the [alreadyTried] list it got back, if it was answered. *)
Fixpoint exchanges (events : list Event)
  : list (list string * option (list string)) :=
  match events with
  | [] => []
  | Queried _ _ tried _ answer :: rest =>
      (tried,
       match answer with
       | inl _ => None
       | inr r => Some (alreadyTried r)
       end) :: exchanges rest
  | _ :: rest => exchanges rest
  end.

(** Every query sends the list the previous one returned; [previous] is
    the list due with the first query. *)
Fixpoint linked (previous : option (list string))
  (queries : list (list string * option (list string))) : Prop :=
  match queries with
  | [] => True
  | (sent, returned) :: rest => previous = Some sent /\ linked returned rest
  end.

(** No answered query of the log returns an id that was returned before
    ([seen]: the ids returned so far). *)
Fixpoint neverRetried (seen : list string) (events : list Event) : Prop :=
  match events with
  | [] => True
  | Queried _ _ _ _ (inr r) :: rest =>
      (forall c, In c (candidates r) -> ~ In (network_id c) seen) /\
      neverRetried (seen ++ map network_id (candidates r)) rest
  | _ :: rest => neverRetried seen rest
  end.

(** Membership in a list of ids. *)
Definition mem (x : string) (l : list string) : bool :=
  existsb (String.eqb x) l.

(** The ids of [pool] not yet in the exclusion list [tried]. *)
Definition untried (pool tried : list string) : list string :=
  filter (fun x => negb (mem x tried)) pool.

(** The edge pushed after the search for an ancestor of [network]. *)
Definition upEdge (found : option IdObject) (network : IdObject)
  : list NetworkGenealogyInput :=
  match found with
  | Some a => [ {| ancestor := a; descendant := network |} ]
  | None => []
  end.

(** The same after the search for a descendant. *)
Definition downEdge (network : IdObject) (found : option IdObject)
  : list NetworkGenealogyInput :=
  match found with
  | Some d => [ {| ancestor := network; descendant := d |} ]
  | None => []
  end.

(** The outcome of a sequence whose current step has not returned: still
    running, or the exception of the step. *)
Definition carried {A B} (o : option (Exn + A)) : option (Exn + B) :=
  match o with
  | Some (inl e) => Some (inl e)
  | _ => None
  end.

(** ** Shapes of logs *)

(** [ValidationLog candidates events o]: what a run of
    [findMatchingCandidateOnChain candidates] can have exchanged, with its
    outcome [o] ([None]: not finished). *)
Inductive ValidationLog
  : list Network -> list Event -> option (Exn + option IdObject) -> Prop :=
| VL_none : ValidationLog [] [] (Some (inr None))
| VL_pending c rest : ValidationLog (c :: rest) [] None
| VL_failed c rest e :
    ValidationLog (c :: rest)
      [Asked (height (historicBlock c)) (inl e)] (Some (inl e))
| VL_hit c rest response :
    confirms response c = true ->
    ValidationLog (c :: rest)
      [Asked (height (historicBlock c)) (inr response)]
      (Some (inr (Some (toIdObject c))))
| VL_miss c rest response events o :
    confirms response c = false ->
    ValidationLog rest events o ->
    ValidationLog (c :: rest)
      (Asked (height (historicBlock c)) (inr response) :: events) o.

(** [SearchLog relation network disableIndex tried events o]: what a run of
    the loop of [findRelation] can have exchanged from a round that starts
    with the exclusion list [tried]. *)
Inductive SearchLog (relation : Relation) (network : option IdObject)
  (disableIndex : bool)
  : list string -> list Event -> option (Exn + option IdObject) -> Prop :=
| SL_pending tried :
    SearchLog relation network disableIndex tried [] None
| SL_undefined tried :
    network = None ->
    SearchLog relation network disableIndex tried []
      (Some (inl TypeError))
| SL_query_failed tried n e :
    network = Some n ->
    SearchLog relation network disableIndex tried
      [Queried relation (id n) tried disableIndex (inl e)]
      (Some (inl TypeError))
| SL_validation tried n r events o :
    network = Some n ->
    ValidationLog (candidates r) events o ->
    o <> Some (inr None) ->
    SearchLog relation network disableIndex tried
      (Queried relation (id n) tried disableIndex (inr r) :: events) o
| SL_exhausted tried n r events :
    network = Some n ->
    ValidationLog (candidates r) events (Some (inr None)) ->
    candidates r = [] ->
    SearchLog relation network disableIndex tried
      (Queried relation (id n) tried disableIndex (inr r) :: events)
      (Some (inr None))
| SL_again tried n r events events' o :
    network = Some n ->
    ValidationLog (candidates r) events (Some (inr None)) ->
    candidates r <> [] ->
    SearchLog relation network disableIndex (alreadyTried r) events' o ->
    SearchLog relation network disableIndex tried
      (Queried relation (id n) tried disableIndex (inr r)
         :: events ++ events') o.

(** How a finished search ended: a candidate was confirmed by the last
    answer of the chain; or the last batch of the store was empty; or a
    request to the chain failed. *)
Definition SearchEnd (relation : Relation) (network : IdObject)
  (disableIndex : bool) (events : list Event)
  (out : Exn + option IdObject) : Prop :=
  (exists before c response,
     out = inr (Some (toIdObject c)) /\
     confirms response c = true /\
     events =
       before ++ [Asked (height (historicBlock c)) (inr response)]) \/
  (exists before tried r,
     out = inr None /\
     candidates r = [] /\
     events =
       before ++ [Queried relation (id network) tried disableIndex (inr r)]) \/
  (exists before height e,
     out = inl e /\
     events = before ++ [Asked height (inl e)]).

(** [BatchLog disableIndex batch genealogies events o]: what a run of the
    loop over [batch] can have exchanged, starting with the edges
    [genealogies]: for each network in turn, a search for an ancestor and
    a search for a descendant, each adding its edge when it finds one. *)
Inductive BatchLog (disableIndex : bool)
  : list IdObject -> list NetworkGenealogyInput -> list Event ->
    option (Exn + list NetworkGenealogyInput) -> Prop :=
| BL_done genealogies :
    BatchLog disableIndex [] genealogies [] (Some (inr genealogies))
| BL_ancestor network rest genealogies events o :
    SearchLog Ancestor (Some network) disableIndex [] events o ->
    (forall found, o <> Some (inr found)) ->
    BatchLog disableIndex (network :: rest) genealogies events (carried o)
| BL_descendant network rest genealogies ev1 a ev2 o :
    SearchLog Ancestor (Some network) disableIndex [] ev1 (Some (inr a)) ->
    SearchLog Descendant (Some network) disableIndex [] ev2 o ->
    (forall found, o <> Some (inr found)) ->
    BatchLog disableIndex (network :: rest) genealogies (ev1 ++ ev2)
      (carried o)
| BL_next network rest genealogies ev1 a ev2 d ev3 o :
    SearchLog Ancestor (Some network) disableIndex [] ev1 (Some (inr a)) ->
    SearchLog Descendant (Some network) disableIndex [] ev2 (Some (inr d)) ->
    BatchLog disableIndex rest
      (genealogies ++ upEdge a network ++ downEdge network d) ev3 o ->
    BatchLog disableIndex (network :: rest) genealogies
      (ev1 ++ ev2 ++ ev3) o.

(** [ProcessLog options events o]: what an invocation of [process] can
    have exchanged: nothing for an empty array; else the search for an
    ancestor of the earliest network (whose result is not used), the
    searches of the loop over the sorted batch from the pairwise edges,
    and then the load of the edges the loop ended with. *)
Inductive ProcessLog (options : Options.t)
  : list Event -> option (Exn + option (list IdObject)) -> Prop :=
| PL_empty :
    Options.networks options = [] ->
    ProcessLog options [] (Some (inr None))
| PL_lookup events o :
    Options.networks options <> [] ->
    SearchLog Ancestor (nth_error (networks (collectNetworks options)) 0)
      (truthy (Options.disableIndex options)) [] events o ->
    (forall found, o <> Some (inr found)) ->
    ProcessLog options events (carried o)
| PL_searches lookup found events o :
    Options.networks options <> [] ->
    SearchLog Ancestor (nth_error (networks (collectNetworks options)) 0)
      (truthy (Options.disableIndex options)) [] lookup
      (Some (inr found)) ->
    BatchLog (truthy (Options.disableIndex options))
      (networks (collectNetworks options))
      (networkGenealogies (collectNetworks options)) events o ->
    (forall genealogies, o <> Some (inr genealogies)) ->
    ProcessLog options (lookup ++ events) (carried o)
| PL_loading lookup found searches genealogies :
    Options.networks options <> [] ->
    SearchLog Ancestor (nth_error (networks (collectNetworks options)) 0)
      (truthy (Options.disableIndex options)) [] lookup
      (Some (inr found)) ->
    BatchLog (truthy (Options.disableIndex options))
      (networks (collectNetworks options))
      (networkGenealogies (collectNetworks options)) searches
      (Some (inr genealogies)) ->
    ProcessLog options (lookup ++ searches) None
| PL_loaded lookup found searches genealogies answer :
    Options.networks options <> [] ->
    SearchLog Ancestor (nth_error (networks (collectNetworks options)) 0)
      (truthy (Options.disableIndex options)) [] lookup
      (Some (inr found)) ->
    BatchLog (truthy (Options.disableIndex options))
      (networks (collectNetworks options))
      (networkGenealogies (collectNetworks options)) searches
      (Some (inr genealogies)) ->
    ProcessLog options
      (lookup ++ searches ++ [Loaded genealogies answer])
      (Some match answer with
            | inl e => inl e
            | inr results => inr (Some results)
            end).

(** [NoLoadYet]: only searches so far, and no list of results returned. *)
Definition NoLoadYet (events : list Event)
  (o : option (Exn + option (list IdObject))) : Prop :=
  Forall isSearch events /\
  forall results, o <> Some (inr (Some results)).

(** [LoadedOnce options]: searches that were all answered, then one load,
    which is the last entry; its input starts with the pairwise edges of
    the batch, followed by edges that each have an end in the batch; and
    the outcome is the answer of the load. *)
Definition LoadedOnce (options : Options.t) (events : list Event)
  (o : option (Exn + option (list IdObject))) : Prop :=
  exists searches cross answer,
    events =
      searches ++
      [Loaded (networkGenealogies (collectNetworks options) ++ cross)
         answer] /\
    Forall isSearch searches /\
    Forall isAnswered searches /\
    Forall (fun e =>
              In (ancestor e) (networks (collectNetworks options)) \/
              In (descendant e) (networks (collectNetworks options)))
           cross /\
    o = Some match answer with
             | inl e => inl e
             | inr results => inr (Some results)
             end.

(** ** Assumptions on the environment *)

(** The chain answers every query for a block, and [chain height] is what
    it reports at [height]. *)
Definition ChainView {W} (env : Env W) (chain : Z -> option Web3.Response)
  : Prop :=
  forall w height, snd (env _ w (Web3Request height)) = inr (chain height).

(** The candidate's recorded [(height, hash)] is the chain's block at that
    height. *)
Definition matchesChain (chain : Z -> option Web3.Response)
  (candidate : Network) : bool :=
  confirms (chain (height (historicBlock candidate))) candidate.

(** The entry of the log for the validation of one candidate. *)
Definition asked (chain : Z -> option Web3.Response) (candidate : Network)
  : Event :=
  Asked (height (historicBlock candidate))
    (inr (chain (height (historicBlock candidate)))).

(** The answer of a chain that has a block with hash [h] at the height. *)
Definition blockWith (h : string) : option Web3.Response :=
  Some {| Web3.result := Some {| Web3.hash := h |} |}.

(** Modelled from the spec: the store, which is not among the sources.  It
    has finitely many candidates, the networks with an id in [pool]; it
    answers every query, never returns an excluded id, and the
    [alreadyTried] it returns contains the list it was sent and the ids it
    returns now. *)
Definition HonorsExclusion {W} (env : Env W) (pool : list string) : Prop :=
  forall w relation networkId tried disableIndex,
  exists r,
    snd (env _ w (ResourcesGet relation networkId tried disableIndex)) =
      inr r /\
    (forall c, In c (candidates r) ->
               In (network_id c) pool /\ ~ In (network_id c) tried) /\
    (forall x, In x tried -> In x (alreadyTried r)) /\
    (forall c, In c (candidates r) -> In (network_id c) (alreadyTried r)).

(** The store never lists the network a query is for among the
    candidates it returns for it. *)
Definition NoSelfCandidate {W} (env : Env W) : Prop :=
  forall w relation networkId tried disableIndex r,
    snd (env _ w (ResourcesGet relation networkId tried disableIndex)) =
      inr r ->
    Forall (fun c => network_id c <> networkId) (candidates r).

(** The answer recorded in this entry is one the environment gives to its
    request. *)
Definition fromEnv {W} (env : Env W) (e : Event) : Prop :=
  match e with
  | Queried relation networkId tried disableIndex answer =>
      exists w,
        snd (env _ w (ResourcesGet relation networkId tried disableIndex)) =
          answer
  | Asked height answer =>
      exists w, snd (env _ w (Web3Request height)) = answer
  | Loaded inputs answer =>
      exists w, snd (env _ w (ResourcesLoad inputs)) = answer
  end.

(** ** Example networks and environments *)

(** Two networks of the same chain, used in the examples. *)
Definition n1 : Network :=
  {| network_id := "n1";
     historicBlock := {| hash := "0xaa"; height := 100 |} |}.

(** The later of the two. *)
Definition n2 : Network :=
  {| network_id := "n2";
     historicBlock := {| hash := "0xbb"; height := 200 |} |}.

(** A network recorded with its hash in upper case. *)
Definition n1_upper : Network :=
  {| network_id := "n1";
     historicBlock := {| hash := "0xAA"; height := 100 |} |}.

(** A network whose recorded hash is not the chain's at its height. *)
Definition n0_forked : Network :=
  {| network_id := "n0";
     historicBlock := {| hash := "0xcc"; height := 100 |} |}.

(** A network recorded at a height the example chain has not reached. *)
Definition n3_beyond : Network :=
  {| network_id := "n3";
     historicBlock := {| hash := "0xdd"; height := 300 |} |}.

(** An example chain: the blocks of [n1] and [n2], nothing elsewhere. *)
Definition exampleChain (height : Z) : option Web3.Response :=
  if height =? 100 then blockWith "0xaa"
  else if height =? 200 then blockWith "0xbb"
  else Some {| Web3.result := None |}.

(** An example store that knows the networks [known]: a query returns the
    first known network that is not excluded, and adds it to the exclusion
    list; when all are excluded the batch is empty. *)
Definition exampleQuery (known : list Network) (tried : list string)
  : CandidateSearchResult :=
  match filter (fun c => negb (mem (network_id c) tried)) known with
  | [] => {| candidates := []; alreadyTried := tried |}
  | c :: _ =>
      {| candidates := [c]; alreadyTried := tried ++ [network_id c] |}
  end.

(** An environment without state, made of a store, a chain client and a
    load that names each record after its two ends. *)
Definition clients
  (store : Relation -> string -> list string -> bool ->
           Exn + CandidateSearchResult)
  (chain : Z -> Exn + option Web3.Response) : Env unit :=
  fun X w request =>
    match request in ProcessE X return unit * X with
    | ResourcesGet relation networkId tried disableIndex =>
        (w, store relation networkId tried disableIndex)
    | Web3Request height => (w, chain height)
    | ResourcesLoad inputs =>
        (w, inr (map (fun e =>
                        {| id := id (ancestor e) ++ "->" ++ id (descendant e) |})
                     inputs))
    end.

(** The example store over [known] with a client of the chain [chain]. *)
Definition exampleEnv (known : list Network)
  (chain : Z -> option Web3.Response) : Env unit :=
  clients (fun _ _ tried _ => inr (exampleQuery known tried))
          (fun height => inr (chain height)).

(** A chain client whose queries fail. *)
Definition failingChainEnv (known : list Network) : Env unit :=
  clients (fun _ _ tried _ => inr (exampleQuery known tried))
          (fun _ => inl ChainQueryError).

(** A store that answers its first two queries with an empty batch and
    fails from the third on; its state counts the queries. *)
Definition flakyStoreEnv : Env nat :=
  fun X w request =>
    match request in ProcessE X return nat * X with
    | ResourcesGet _ _ tried _ =>
        (S w,
         if (w <? 2)%nat
         then inr {| candidates := []; alreadyTried := tried |}
         else inl StoreQueryError)
    | Web3Request height => (w, inr (exampleChain height))
    | ResourcesLoad inputs => (w, inr (map ancestor inputs))
    end.

(** An example store that tells the relations apart: for ancestors it is
    the example store over the known networks other than the one asked
    about; it knows no descendants. *)
Definition ancestorsEnv (known : list Network)
  (chain : Z -> option Web3.Response) : Env unit :=
  clients
    (fun relation networkId tried _ =>
       inr match relation with
           | Ancestor =>
               exampleQuery
                 (filter (fun c => negb (String.eqb (network_id c) networkId))
                         known)
                 tried
           | Descendant => {| candidates := []; alreadyTried := tried |}
           end)
    (fun height => inr (chain height)).

(** ** Readings used by the further properties *)

(** Each edge of the list ends where the next one starts. *)
Fixpoint chained (edges : list NetworkGenealogyInput) : Prop :=
  match edges with
  | e1 :: (e2 :: _) as rest => descendant e1 = ancestor e2 /\ chained rest
  | _ => True
  end.

(** No two different entries of the list are at the same height. *)
Definition heightsTellApart (l : list Network) : Prop :=
  forall x y,
    In x l -> In y l ->
    height (historicBlock x) = height (historicBlock y) -> x = y.


(** The entry is the chain request for the candidate's height. *)
Definition askedFor (c : Network) (e : Event) : Prop :=
  exists answer, e = Asked (height (historicBlock c)) answer.

(** The entry is the chain request for the candidate's height, answered
    with something that does not confirm the candidate. *)
Definition refusedBy (c : Network) (e : Event) : Prop :=
  exists response,
    e = Asked (height (historicBlock c)) (inr response) /\
    confirms response c = false.


(** Every store query of the log is for [relation], [networkId] and
    [flag], no record is loaded, and every chain request is for the height
    of a candidate of the store answer before it ([batch]: the candidates
    of the latest answer). *)
Fixpoint searchesFor (relation : Relation) (networkId : string)
  (flag : bool) (batch : list Network) (events : list Event) : Prop :=
  match events with
  | [] => True
  | Queried r i _ d answer :: rest =>
      r = relation /\ i = networkId /\ d = flag /\
      searchesFor relation networkId flag
        match answer with
        | inl _ => []
        | inr found => candidates found
        end rest
  | Asked h _ :: rest =>
      (exists c, In c batch /\ height (historicBlock c) = h) /\
      searchesFor relation networkId flag batch rest
  | Loaded _ _ :: _ => False
  end.

(** Every candidate the store returned was asked about, in order, and
    refused by the chain ([pending]: the candidates of the latest answer
    still to be asked about). *)
Fixpoint examined (pending : list Network) (events : list Event) : Prop :=
  match events with
  | [] => pending = []
  | Queried _ _ _ _ (inr found) :: rest =>
      pending = [] /\ examined (candidates found) rest
  | Asked h (inr response) :: rest =>
      match pending with
      | c :: pending' =>
          h = height (historicBlock c) /\
          confirms response c = false /\
          examined pending' rest
      | [] => False
      end
  | _ => False
  end.

(** The store offers a candidate at every query, whatever the exclusion
    list. *)
Definition OffersAlways {W} (env : Env W) : Prop :=
  forall w relation networkId tried disableIndex,
  exists r,
    snd (env _ w (ResourcesGet relation networkId tried disableIndex)) =
      inr r /\
    candidates r <> [].

(** The chain answers every request, and never with the block a candidate
    records. *)
Definition RefusesAll {W} (env : Env W) : Prop :=
  forall w height,
  exists response,
    snd (env _ w (Web3Request height)) = inr response /\
    forall c, confirms response c = false.

(** An example of such a store and chain: the store offers [n1] at every
    query and returns the exclusion list as it got it; the chain has no
    block. *)
Definition stubbornEnv : Env unit :=
  clients (fun _ _ tried _ =>
             inr {| candidates := [n1]; alreadyTried := tried |})
          (fun _ => inr None).


(** The store answers every query with an empty batch. *)
Definition KnowsNothing {W} (env : Env W) : Prop :=
  forall w relation networkId tried disableIndex,
  exists r,
    snd (env _ w (ResourcesGet relation networkId tried disableIndex)) =
      inr r /\
    candidates r = [].

(** The entry is the first query of a search, answered with an empty
    batch. *)
Definition isFirstQueryUnanswered (e : Event) : Prop :=
  match e with
  | Queried _ _ sent _ (inr r) => sent = [] /\ candidates r = []
  | _ => False
  end.


(** A store query of this entry carries the flag [flag] and is about one
    of the networks [ids]. *)
Definition queriesAbout (ids : list IdObject) (flag : bool) (e : Event)
  : Prop :=
  match e with
  | Queried _ i _ d _ => d = flag /\ In {| id := i |} ids
  | _ => True
  end.

(** The environment keeps no state: its answers do not depend on what was
    asked before. *)
Definition Stateless {W} (env : Env W) : Prop :=
  forall X w (request : ProcessE X), fst (env X w request) = w.


(** The edge joins a network [n] of [batch] with a candidate [c] that, in
    the log, the store returned to a query about [n] and a chain answer
    confirmed (it reports the hash [c] records at the height of [c]); the
    candidate is the ancestor when the query was for ancestors and the
    descendant when it was for descendants. *)
Definition confirmedEdge (batch : list IdObject) (events : list Event)
  (e : NetworkGenealogyInput) : Prop :=
  exists relation n sent flag r c response,
    In n batch /\
    In (Queried relation (id n) sent flag (inr r)) events /\
    In c (candidates r) /\
    In (Asked (height (historicBlock c)) (inr response)) events /\
    confirms response c = true /\
    e = match relation with
        | Ancestor => {| ancestor := toIdObject c; descendant := n |}
        | Descendant => {| ancestor := n; descendant := toIdObject c |}
        end.


(* ===================================================================== *)
(** * Laws of the interpreter *)
(* ===================================================================== *)

Section RunLaws.
Context {W : Type} (env : Env W).

Lemma run_unfold {R} fuel w (t : itree ProcessE R) :
  run env fuel w t =
  match observe t with
  | RetF r => ([], w, Some r)
  | TauF t' =>
      match fuel with
      | O => ([], w, None)
      | S fuel' => run env fuel' w t'
      end
  | VisF request k =>
      match fuel with
      | O => ([], w, None)
      | S fuel' =>
          let (w', answer) := @env _ w request in
          let '(events, w'', r) := run env fuel' w' (k answer) in
          (log request answer :: events, w'', r)
      end
  end.
Proof. destruct fuel; reflexivity. Qed.

(** [run] looks at a tree through [observe] only. *)
Lemma run_observe {R} fuel w (t u : itree ProcessE R) :
  observe t = observe u -> run env fuel w t = run env fuel w u.
Proof. intros H. rewrite (run_unfold fuel w t), (run_unfold fuel w u), H. reflexivity. Qed.

Lemma observe_bind_cases {A B} (t : itree ProcessE A)
  (k : A -> itree ProcessE B) :
  observe (ITree.bind t k) =
  match observe t with
  | RetF r => observe (k r)
  | TauF t' => TauF (ITree.bind t' k)
  | VisF e h => VisF e (fun x => ITree.bind (h x) k)
  end.
Proof. rewrite observe_bind. destruct (observe t); reflexivity. Qed.

Lemma observe_iter {I R} (step : I -> itree ProcessE (I + R)) (i : I) :
  observe (ITree.iter step i) =
  observe (ITree.bind (step i)
             (fun lr => match lr with
                        | inl l => Tau (ITree.iter step l)
                        | inr r => Ret r
                        end)).
Proof. reflexivity. Qed.

(** A finished run stays the same with more fuel. *)
Lemma run_finished_mono {R} fuel fuel' w (t : itree ProcessE R) events w' r :
  run env fuel w t = (events, w', Some r) ->
  (fuel <= fuel')%nat ->
  run env fuel' w t = (events, w', Some r).
Proof.
  revert fuel' w t events w' r.
  induction fuel as [|fuel IH]; intros fuel' w t events w' r Hrun Hle;
    rewrite run_unfold in Hrun; rewrite run_unfold;
    destruct (observe t) as [r0 | t' | X request k]; try discriminate; auto.
  - destruct fuel' as [|fuel']; [lia|]. apply IH; [exact Hrun | lia].
  - destruct fuel' as [|fuel']; [lia|].
    destruct (@env _ w request) as [w1 answer].
    destruct (run env fuel w1 (k answer)) as [[ev1 w2] o] eqn:E.
    inversion Hrun; subst.
    rewrite (IH fuel' w1 (k answer) ev1 w' r E); [reflexivity | lia].
Qed.

(** Sequencing, seen from the first part: either it does not finish
    within the fuel, and neither does the whole, or it finishes and the
    rest runs from there on what fuel is left. *)
Lemma run_bind {A B} fuel w (t : itree ProcessE A) (k : A -> itree ProcessE B) :
  match run env fuel w t with
  | (ev1, w1, None) => run env fuel w (ITree.bind t k) = (ev1, w1, None)
  | (ev1, w1, Some a) =>
      exists fuel2, (fuel2 <= fuel)%nat /\
        run env fuel w (ITree.bind t k) =
        (let '(ev2, w2, o) := run env fuel2 w1 (k a) in (ev1 ++ ev2, w2, o))
  end.
Proof.
  revert w t.
  induction fuel as [|fuel IH]; intros w t;
    rewrite (run_unfold _ w t), (run_unfold _ w (ITree.bind t k)), observe_bind_cases;
    destruct (observe t) as [r0 | t' | X request h]; cbn [app]; auto.
  - exists 0%nat. split; [lia|]. rewrite (run_unfold 0 w (k r0)).
    destruct (observe (k r0)); reflexivity.
  - exists (S fuel). split; [lia|]. rewrite (run_unfold (S fuel) w (k r0)).
    destruct (observe (k r0)) as [r1 | t1 | Y req1 k1]; try reflexivity.
    + destruct (run env fuel w t1) as [[e1 w1] o1]. reflexivity.
    + destruct (@env _ w req1) as [w1 answer].
      destruct (run env fuel w1 (k1 answer)) as [[e1 w2] o1]. reflexivity.
  - specialize (IH w t').
    destruct (run env fuel w t') as [[ev1 w1] [a|]]; auto.
    destruct IH as (fuel2 & Hle & Heq). exists fuel2. split; [lia | exact Heq].
  - destruct (@env _ w request) as [w1 answer].
    specialize (IH w1 (h answer)).
    destruct (run env fuel w1 (h answer)) as [[ev1 w2] [a|]].
    + destruct IH as (fuel2 & Hle & Heq). exists fuel2. split; [lia|].
      rewrite Heq.
      destruct (run env fuel2 w2 (k a)) as [[ev2 w3] o]. reflexivity.
    + rewrite IH. reflexivity.
Qed.

(** Sequencing of two finished runs. *)
Lemma run_bind_finished {A B} f1 f2 w (t : itree ProcessE A)
  (k : A -> itree ProcessE B) ev1 w1 a ev2 w2 b :
  run env f1 w t = (ev1, w1, Some a) ->
  run env f2 w1 (k a) = (ev2, w2, Some b) ->
  run env (f1 + f2) w (ITree.bind t k) = (ev1 ++ ev2, w2, Some b).
Proof.
  revert w t ev1.
  induction f1 as [|f1 IH]; intros w t ev1 H1 H2;
    rewrite run_unfold in H1;
    rewrite (run_unfold _ w (ITree.bind t k)), observe_bind_cases;
    destruct (observe t) as [r0 | t' | X request h]; try discriminate.
  - inversion H1; subst. rewrite <- run_unfold. exact H2.
  - inversion H1; subst. rewrite <- run_unfold.
    apply run_finished_mono with (fuel := f2); [exact H2 | lia].
  - cbn [Nat.add]. apply IH; assumption.
  - cbn [Nat.add]. destruct (@env _ w request) as [w0 answer].
    destruct (run env f1 w0 (h answer)) as [[e1 w3] o] eqn:E.
    inversion H1; subst.
    rewrite (IH _ _ _ E H2). reflexivity.
Qed.

(** ** Rules for [Always] *)

Lemma Always_weaken {R} w (t : itree ProcessE R)
  (Q Q' : list Event -> W -> option R -> Prop) :
  Always env w t Q ->
  (forall events w' r, Q events w' r -> Q' events w' r) ->
  Always env w t Q'.
Proof.
  intros H HQ fuel. specialize (H fuel).
  destruct (run env fuel w t) as [[events w'] r]. auto.
Qed.

Lemma Always_Ret {R} w (r : R) (Q : list Event -> W -> option R -> Prop) :
  Q [] w (Some r) -> Always env w (Ret r) Q.
Proof. intros H fuel. rewrite run_unfold. exact H. Qed.

Lemma Always_trigger {X} w (request : ProcessE X)
  (Q : list Event -> W -> option X -> Prop) :
  Q [] w None ->
  (forall w' answer, @env _ w request = (w', answer) ->
                     Q [log request answer] w' (Some answer)) ->
  Always env w (ITree.trigger request) Q.
Proof.
  intros H0 H1 fuel. rewrite run_unfold. cbn.
  destruct fuel as [|fuel]; [exact H0|].
  destruct (@env _ w request) as [w' answer] eqn:E.
  rewrite run_unfold. cbn. apply H1. reflexivity.
Qed.

Lemma Always_bind {A B} w (t : itree ProcessE A)
  (k : A -> itree ProcessE B) (Q : list Event -> W -> option B -> Prop) :
  Always env w t
    (fun ev1 w1 o1 =>
       match o1 with
       | None => Q ev1 w1 None
       | Some a =>
           Always env w1 (k a) (fun ev2 w2 o2 => Q (ev1 ++ ev2) w2 o2)
       end) ->
  Always env w (ITree.bind t k) Q.
Proof.
  intros H fuel. specialize (H fuel).
  pose proof (run_bind fuel w t k) as Hb.
  destruct (run env fuel w t) as [[ev1 w1] [a|]].
  - destruct Hb as (fuel2 & _ & Heq). rewrite Heq.
    specialize (H fuel2).
    destruct (run env fuel2 w1 (k a)) as [[ev2 w2] o2]. exact H.
  - rewrite Hb. exact H.
Qed.

(** The loop rule: [Inv events w i] holds of the log, the environment
    and the loop state at the start of every round. *)
Lemma Always_iter {I R} (step : I -> itree ProcessE (I + R))
  (Inv : list Event -> W -> I -> Prop)
  (Q : list Event -> W -> option R -> Prop) :
  (forall events w i, Inv events w i -> Q events w None) ->
  (forall events w i, Inv events w i ->
     Always env w (step i)
       (fun ev1 w1 o1 =>
          match o1 with
          | None => Q (events ++ ev1) w1 None
          | Some (inl i') => Inv (events ++ ev1) w1 i'
          | Some (inr r) => Q (events ++ ev1) w1 (Some r)
          end)) ->
  forall events w i, Inv events w i ->
    Always env w (ITree.iter step i)
      (fun ev w' o => Q (events ++ ev) w' o).
Proof.
  intros Hnone Hstep events w i Hinv fuel.
  revert events w i Hinv.
  induction fuel as [fuel IH] using lt_wf_ind; intros events w i Hinv.
  rewrite (run_observe fuel w _ _ (observe_iter step i)).
  pose proof (Hstep events w i Hinv fuel) as Hbody.
  match goal with
  | |- context [run env fuel w (ITree.bind (step i) ?K)] =>
      pose proof (run_bind fuel w (step i) K) as Hb
  end.
  destruct (run env fuel w (step i)) as [[ev1 w1] [[i'|r]|]].
  - destruct Hb as (fuel2 & Hle & Heq). rewrite Heq.
    rewrite run_unfold. cbn.
    destruct fuel2 as [|fuel2].
    + rewrite app_nil_r. eapply Hnone; eassumption.
    + assert (Hlt : (fuel2 < fuel)%nat) by lia.
      specialize (IH fuel2 Hlt (events ++ ev1) w1 i' Hbody).
      destruct (run env fuel2 w1 (ITree.iter step i')) as [[ev2 w2] o2].
      rewrite app_assoc. exact IH.
  - destruct Hb as (fuel2 & Hle & Heq). rewrite Heq.
    rewrite run_unfold. cbn. rewrite app_nil_r. exact Hbody.
  - rewrite Hb. exact Hbody.
Qed.

Lemma Always_and {R} w (t : itree ProcessE R)
  (P Q : list Event -> W -> option R -> Prop) :
  Always env w t P -> Always env w t Q ->
  Always env w t (fun events w' o => P events w' o /\ Q events w' o).
Proof.
  intros HP HQ fuel. specialize (HP fuel). specialize (HQ fuel).
  destruct (run env fuel w t) as [[events w'] o]. split; assumption.
Qed.

(** ** Rules for [Runs] *)

Lemma Runs_Ret {R} w (r : R) : Runs env w (Ret r) [] w r.
Proof. exists 0%nat. reflexivity. Qed.

Lemma Runs_trigger {X} w (request : ProcessE X) w' answer :
  @env _ w request = (w', answer) ->
  Runs env w (ITree.trigger request) [log request answer] w' answer.
Proof. intros H. exists 1%nat. cbn. rewrite H. reflexivity. Qed.

Lemma Runs_bind {A B} w (t : itree ProcessE A) (k : A -> itree ProcessE B)
  ev1 w1 a ev2 w2 b :
  Runs env w t ev1 w1 a ->
  Runs env w1 (k a) ev2 w2 b ->
  Runs env w (ITree.bind t k) (ev1 ++ ev2) w2 b.
Proof.
  intros [f1 H1] [f2 H2]. exists (f1 + f2)%nat.
  eapply run_bind_finished; eassumption.
Qed.

Lemma Runs_iter_done {I R} (step : I -> itree ProcessE (I + R)) w i
  events w' r :
  Runs env w (step i) events w' (inr r) ->
  Runs env w (ITree.iter step i) events w' r.
Proof.
  intros H. rewrite <- (app_nil_r events).
  destruct (Runs_bind (fun lr : I + R =>
                         match lr with
                         | inl l => Tau (ITree.iter step l)
                         | inr r => Ret r
                         end) H (Runs_Ret w' r)) as [fuel Hrun].
  exists fuel. rewrite <- Hrun. apply run_observe, observe_iter.
Qed.

Lemma Runs_iter_again {I R} (step : I -> itree ProcessE (I + R)) w i
  ev1 w1 i' ev2 w2 r :
  Runs env w (step i) ev1 w1 (inl i') ->
  Runs env w1 (ITree.iter step i') ev2 w2 r ->
  Runs env w (ITree.iter step i) (ev1 ++ ev2) w2 r.
Proof.
  intros H [f2 H2].
  assert (Htau : Runs env w1 (Tau (ITree.iter step i')) ev2 w2 r)
    by (exists (S f2); exact H2).
  destruct (Runs_bind (fun lr : I + R =>
                         match lr with
                         | inl l => Tau (ITree.iter step l)
                         | inr r => Ret r
                         end) H Htau) as [fuel Hrun].
  exists fuel. rewrite <- Hrun. apply run_observe, observe_iter.
Qed.

(** A process finishes in one way only, and what [Always] holds of its
    prefixes holds of the finished run. *)
Lemma Runs_det {R} w (t : itree ProcessE R) ev1 w1 r1 ev2 w2 r2 :
  Runs env w t ev1 w1 r1 -> Runs env w t ev2 w2 r2 ->
  ev1 = ev2 /\ w1 = w2 /\ r1 = r2.
Proof.
  intros [f1 H1] [f2 H2].
  apply run_finished_mono with (fuel' := (f1 + f2)%nat) in H1; [|lia].
  apply run_finished_mono with (fuel' := (f1 + f2)%nat) in H2; [|lia].
  rewrite H1 in H2. inversion H2. auto.
Qed.

Lemma Always_Runs {R} w (t : itree ProcessE R) Q events w' r :
  Always env w t Q -> Runs env w t events w' r -> Q events w' (Some r).
Proof. intros H [fuel Hrun]. specialize (H fuel). rewrite Hrun in H. exact H. Qed.

End RunLaws.


(** ** The same rules for generators that can throw *)

Section ProcessLaws.
Context {W : Type} (env : Env W).

Lemma Always_then {A B} w (m : Process A) (k : A -> Process B)
  (Q : list Event -> W -> option (Exn + B) -> Prop) :
  Always env w m
    (fun ev1 w1 o1 =>
       match o1 with
       | None => Q ev1 w1 None
       | Some (inl e) => Q ev1 w1 (Some (inl e))
       | Some (inr a) =>
           Always env w1 (k a) (fun ev2 w2 o2 => Q (ev1 ++ ev2) w2 o2)
       end) ->
  Always env w (bind m k) Q.
Proof.
  intros H. unfold bind. apply Always_bind.
  eapply Always_weaken; [exact H|].
  intros ev1 w1 [[e|a]|] HQ; auto.
  apply Always_Ret. rewrite app_nil_r. exact HQ.
Qed.

Lemma Always_try_catch {A} w (m : Process A) (handler : Exn -> Process A)
  (Q : list Event -> W -> option (Exn + A) -> Prop) :
  Always env w m
    (fun ev1 w1 o1 =>
       match o1 with
       | None => Q ev1 w1 None
       | Some (inl e) =>
           Always env w1 (handler e)
             (fun ev2 w2 o2 => Q (ev1 ++ ev2) w2 o2)
       | Some (inr a) => Q ev1 w1 (Some (inr a))
       end) ->
  Always env w (try_catch m handler) Q.
Proof.
  intros H. unfold try_catch. apply Always_bind.
  eapply Always_weaken; [exact H|].
  intros ev1 w1 [[e|a]|] HQ; auto.
  apply Always_Ret. rewrite app_nil_r. exact HQ.
Qed.

Lemma Always_yield {X} w (request : ProcessE (Exn + X))
  (Q : list Event -> W -> option (Exn + X) -> Prop) :
  Q [] w None ->
  (forall w' answer, @env _ w request = (w', answer) ->
                     Q [log request answer] w' (Some answer)) ->
  Always env w (yield request) Q.
Proof. apply Always_trigger. Qed.

Lemma Always_do_while {S T} (body : S -> Process (S + T))
  (Inv : list Event -> W -> S -> Prop)
  (Q : list Event -> W -> option (Exn + T) -> Prop) :
  (forall events w s, Inv events w s -> Q events w None) ->
  (forall events w s, Inv events w s ->
     Always env w (body s)
       (fun ev1 w1 o1 =>
          match o1 with
          | None => Q (events ++ ev1) w1 None
          | Some (inl e) => Q (events ++ ev1) w1 (Some (inl e))
          | Some (inr (inl s')) => Inv (events ++ ev1) w1 s'
          | Some (inr (inr v)) => Q (events ++ ev1) w1 (Some (inr v))
          end)) ->
  forall events w s, Inv events w s ->
    Always env w (do_while body s)
      (fun ev w' o => Q (events ++ ev) w' o).
Proof.
  intros Hnone Hbody events w s Hinv. unfold do_while.
  apply Always_iter with (Inv := Inv); [exact Hnone | | exact Hinv].
  clear events w s Hinv. intros events w s Hinv.
  unfold ITree.map. apply Always_bind.
  eapply Always_weaken; [exact (Hbody events w s Hinv)|].
  intros ev1 w1 [[e|[s'|v]]|] HQ; auto;
    apply Always_Ret; rewrite app_nil_r; exact HQ.
Qed.

Lemma Runs_ret {T} w (v : T) : Runs env w (ret v) [] w (inr v).
Proof. apply Runs_Ret. Qed.

Lemma Runs_then {A B} w (m : Process A) (k : A -> Process B)
  ev1 w1 a ev2 w2 b :
  Runs env w m ev1 w1 (inr a) ->
  Runs env w1 (k a) ev2 w2 b ->
  Runs env w (bind m k) (ev1 ++ ev2) w2 b.
Proof. intros H1 H2. unfold bind. eapply Runs_bind; [exact H1 | exact H2]. Qed.

Lemma Runs_then_throw {A B} w (m : Process A) (k : A -> Process B)
  ev1 w1 e :
  Runs env w m ev1 w1 (inl e) ->
  Runs env w (bind m k) ev1 w1 (inl e).
Proof.
  intros H1. unfold bind. rewrite <- (app_nil_r ev1).
  eapply Runs_bind; [exact H1 | apply Runs_Ret].
Qed.

Lemma Runs_try_returns {A} w (m : Process A) (handler : Exn -> Process A)
  ev1 w1 a :
  Runs env w m ev1 w1 (inr a) ->
  Runs env w (try_catch m handler) ev1 w1 (inr a).
Proof.
  intros H1. unfold try_catch. rewrite <- (app_nil_r ev1).
  eapply Runs_bind; [exact H1 | apply Runs_Ret].
Qed.

Lemma Runs_try_caught {A} w (m : Process A) (handler : Exn -> Process A)
  ev1 w1 e ev2 w2 r :
  Runs env w m ev1 w1 (inl e) ->
  Runs env w1 (handler e) ev2 w2 r ->
  Runs env w (try_catch m handler) (ev1 ++ ev2) w2 r.
Proof.
  intros H1 H2. unfold try_catch. eapply Runs_bind; [exact H1 | exact H2].
Qed.

Lemma Runs_yield {X} w (request : ProcessE (Exn + X)) w' answer :
  @env _ w request = (w', answer) ->
  Runs env w (yield request) [log request answer] w' answer.
Proof. apply Runs_trigger. Qed.

Lemma Runs_do_while_stop {S T} (body : S -> Process (S + T)) w s
  events w' (out : Exn + T) :
  Runs env w (body s) events w'
    (match out with inl e => inl e | inr v => inr (inr v) end) ->
  Runs env w (do_while body s) events w' out.
Proof.
  intros H. unfold do_while. apply Runs_iter_done.
  unfold ITree.map. rewrite <- (app_nil_r events).
  eapply Runs_bind; [exact H|].
  destruct out; apply Runs_Ret.
Qed.

Lemma Runs_do_while_again {S T} (body : S -> Process (S + T)) w s
  ev1 w1 s' ev2 w2 (out : Exn + T) :
  Runs env w (body s) ev1 w1 (inr (inl s')) ->
  Runs env w1 (do_while body s') ev2 w2 out ->
  Runs env w (do_while body s) (ev1 ++ ev2) w2 out.
Proof.
  intros H1 H2. unfold do_while.
  eapply Runs_iter_again; [|exact H2].
  unfold ITree.map. rewrite <- (app_nil_r ev1).
  eapply Runs_bind; [exact H1 | apply Runs_Ret].
Qed.

End ProcessLaws.

(* ===================================================================== *)
(** * collectNetworks: order and pairwise edges *)
(* ===================================================================== *)

Section LineageCollector.

Lemma insertByHeight_perm a l : Permutation (a :: l) (insertByHeight a l).
Proof.
  induction l as [|b l IH]; cbn; [reflexivity|].
  destruct (_ <=? 0); [reflexivity|].
  rewrite perm_swap. constructor. exact IH.
Qed.

Lemma sortByHeight_perm l : Permutation l (sortByHeight l).
Proof.
  induction l as [|a l IH]; cbn; [constructor|].
  rewrite <- insertByHeight_perm. constructor. exact IH.
Qed.

Lemma insertByHeight_In a b l :
  In b (insertByHeight a l) -> b = a \/ In b l.
Proof.
  intros H.
  apply (Permutation_in _ (Permutation_sym (insertByHeight_perm a l))) in H.
  destruct H; auto.
Qed.

Lemma insertByHeight_sorted a l :
  StronglySorted byHeight l -> StronglySorted byHeight (insertByHeight a l).
Proof.
  induction 1 as [|b l Hs IH Hall]; cbn.
  - repeat constructor.
  - destruct (_ <=? 0) eqn:E.
    + apply Z.leb_le in E. constructor; [constructor; assumption|].
      constructor; [unfold byHeight; lia|].
      eapply Forall_impl; [|exact Hall].
      unfold byHeight. intros c Hc. lia.
    + apply Z.leb_gt in E. constructor; [exact IH|].
      apply Forall_forall. intros c Hc.
      apply insertByHeight_In in Hc. destruct Hc as [->|Hc].
      * unfold byHeight. lia.
      * rewrite Forall_forall in Hall. auto.
Qed.

Lemma sortByHeight_sorted l : StronglySorted byHeight (sortByHeight l).
Proof.
  induction l as [|a l IH]; cbn; [constructor|].
  apply insertByHeight_sorted, IH.
Qed.

(** The sort is stable: entries of one height keep their order. *)
Lemma insertByHeight_stable h a l :
  filter (fun n => height (historicBlock n) =? h) (insertByHeight a l) =
  filter (fun n => height (historicBlock n) =? h) (a :: l).
Proof.
  induction l as [|b l IH]; [reflexivity|].
  cbn [insertByHeight]. destruct (_ <=? 0) eqn:E; [reflexivity|].
  apply Z.leb_gt in E. cbn [filter] in *. rewrite IH.
  destruct (height (historicBlock a) =? h) eqn:Ea;
    destruct (height (historicBlock b) =? h) eqn:Eb; try reflexivity.
  apply Z.eqb_eq in Ea, Eb. lia.
Qed.

Lemma sortByHeight_stable h l :
  filter (fun n => height (historicBlock n) =? h) (sortByHeight l) =
  filter (fun n => height (historicBlock n) =? h) l.
Proof.
  induction l as [|a l IH]; [reflexivity|].
  cbn [sortByHeight]. rewrite insertByHeight_stable. cbn [filter].
  rewrite IH. reflexivity.
Qed.

Lemma same_id_true a b : same_id a b = true <-> id a = id b.
Proof. unfold same_id. apply String.eqb_eq. Qed.

Lemma same_id_false a b : same_id a b = false <-> id a <> id b.
Proof. unfold same_id. apply String.eqb_neq. Qed.

(** The reduction, with any accumulator: it appends the edges of the
    neighbours that differ in id. *)
Lemma fold_reducer rest : forall first acc,
  acc_networkGenealogies
    (fold_left reducer rest
       {| acc_ancestor := first; acc_networkGenealogies := acc |}) =
  acc ++ map edge (filter distinct (adjacent (first :: rest))).
Proof.
  induction rest as [|b rest IH]; intros first acc.
  - cbn. rewrite app_nil_r. reflexivity.
  - cbn [fold_left]. unfold reducer at 2. cbn [acc_ancestor acc_networkGenealogies].
    rewrite IH. cbn [adjacent filter]. unfold distinct at 2. cbn [fst snd].
    destruct (same_id first b); cbn [negb map].
    + reflexivity.
    + rewrite <- app_assoc. reflexivity.
Qed.

Lemma pairwise_adjacent l :
  pairwise l = map edge (filter distinct (adjacent l)).
Proof.
  destruct l as [|first rest]; [reflexivity|].
  unfold pairwise. rewrite fold_reducer. reflexivity.
Qed.

Lemma adjacent_map {A B} (f : A -> B) l :
  adjacent (map f l) = map (fun p => (f (fst p), f (snd p))) (adjacent l).
Proof.
  induction l as [|a [|b l] IH]; try reflexivity.
  cbn [map adjacent] in *. rewrite IH. reflexivity.
Qed.

Lemma adjacent_sorted {A} (le : A -> A -> Prop) l :
  StronglySorted le l -> Forall (fun p => le (fst p) (snd p)) (adjacent l).
Proof.
  induction 1 as [|a l Hs IH Hall]; [constructor|].
  destruct l as [|b l]; [constructor|].
  cbn [adjacent]. constructor; [|exact IH].
  inversion Hall; assumption.
Qed.

Lemma collectNetworks_networks options :
  networks (collectNetworks options) =
  map toIdObject (sortedBatch (Options.networks options)).
Proof.
  unfold collectNetworks.
  destruct (sortedBatch (Options.networks options)) as [|n l];
    [reflexivity|].
  cbn [map List.length].
  destruct (Z.ltb_spec (Z.of_nat (S (List.length (map toIdObject l)))) 1);
    [lia | reflexivity].
Qed.

Lemma collectNetworks_genealogies options :
  networkGenealogies (collectNetworks options) =
  pairwise (map toIdObject (sortedBatch (Options.networks options))).
Proof.
  unfold collectNetworks.
  destruct (sortedBatch (Options.networks options)) as [|n l];
    [reflexivity|].
  cbn [map List.length].
  destruct (Z.ltb_spec (Z.of_nat (S (List.length (map toIdObject l)))) 1);
    [lia | reflexivity].
Qed.

Lemma pairwise_noSelfEdge l : Forall noSelfEdge (pairwise l).
Proof.
  rewrite pairwise_adjacent. apply Forall_forall. intros e He.
  apply in_map_iff in He. destruct He as ([a b] & <- & Hin).
  apply filter_In in Hin. destruct Hin as [_ Hd].
  unfold distinct in Hd. cbn in Hd. apply negb_true_iff in Hd.
  apply same_id_false in Hd. exact Hd.
Qed.

End LineageCollector.

Lemma sortByHeight_of_sorted l :
  StronglySorted byHeight l -> sortByHeight l = l.
Proof.
  induction 1 as [|a l Hs IH Hall]; [reflexivity|].
  cbn [sortByHeight]. rewrite IH.
  destruct l as [|b l]; [reflexivity|].
  cbn [insertByHeight]. inversion Hall as [|? ? Hab _]; subst.
  unfold byHeight in Hab.
  destruct (Z.leb_spec (height (historicBlock a) - height (historicBlock b)) 0);
    [reflexivity | lia].
Qed.

Lemma IdObject_eq (a b : IdObject) : id a = id b -> a = b.
Proof. destruct a, b. cbn. intros ->. reflexivity. Qed.

Lemma pairwise_duplicate a a' rest :
  id a = id a' -> pairwise (a :: a' :: rest) = pairwise (a :: rest).
Proof.
  intros H. apply IdObject_eq in H. subst a'.
  rewrite !pairwise_adjacent. cbn [adjacent filter].
  unfold distinct at 1. cbn [fst snd].
  replace (same_id a a) with true
    by (symmetry; apply same_id_true; reflexivity).
  reflexivity.
Qed.

(** C3. For every sparse batch — in particular every non-empty one — the
    networks [collectNetworks] returns are the references, in order, of the
    present entries of the batch sorted ascending by
    [historicBlock.height] (no absent entry is left: the sorted list is a
    permutation of the filtered batch), and every pairwise edge it emits
    joins two neighbours [a], [b] of that sorted list with
    [a.height <= b.height] and has [ancestor.id <> descendant.id]. *)
Theorem collectNetworks_sorted_edges (options : Options.t) :
  let sorted := sortedBatch (Options.networks options) in
  let collected := collectNetworks options in
  networks collected = map toIdObject sorted /\
  Permutation (present (Options.networks options)) sorted /\
  StronglySorted byHeight sorted /\
  Forall (fun e =>
            noSelfEdge e /\
            exists a b,
              In (a, b) (adjacent sorted) /\
              e = edge (toIdObject a, toIdObject b) /\
              height (historicBlock a) <= height (historicBlock b))
         (networkGenealogies collected).
Proof.
  cbv zeta. split; [apply collectNetworks_networks|].
  split; [apply sortByHeight_perm|].
  split; [apply sortByHeight_sorted|].
  rewrite collectNetworks_genealogies.
  apply Forall_forall. intros e He. split.
  - pose proof (pairwise_noSelfEdge
                  (map toIdObject (sortedBatch (Options.networks options))))
      as Hall.
    rewrite Forall_forall in Hall. auto.
  - rewrite pairwise_adjacent, adjacent_map in He.
    apply in_map_iff in He. destruct He as (p & <- & Hp).
    apply filter_In in Hp. destruct Hp as [Hp _].
    apply in_map_iff in Hp. destruct Hp as ([a b] & <- & Hab).
    exists a, b. split; [exact Hab|]. split; [reflexivity|].
    pose proof (adjacent_sorted
                  (sortByHeight_sorted (present (Options.networks options))))
      as Hs.
    rewrite Forall_forall in Hs. exact (Hs _ Hab).
Qed.

(** C4. In the pairwise walk, the edges are exactly those of the
    neighbours with different ids, in order: neighbours with equal id give
    no edge.  Collapsing a duplicate does not lose the edge to the next
    distinct entry: the walk over [a, a', rest] with [a.id = a'.id] gives
    the edges of the walk over [a, rest]; a sorted batch [A, A, B] with
    distinct ids gives exactly the edge [A -> B]; and a batch of two
    entries with the same id and height gives no edge. *)
Theorem pairwise_collapses_duplicates :
  (forall l, pairwise l = map edge (filter distinct (adjacent l))) /\
  (forall a a' rest,
     id a = id a' -> pairwise (a :: a' :: rest) = pairwise (a :: rest)) /\
  (forall (a a' b : Network) disableIndex,
     network_id a = network_id a' ->
     network_id a <> network_id b ->
     byHeight a a' -> byHeight a' b ->
     networkGenealogies
       (collectNetworks (Options.mk [Some a; Some a'; Some b] disableIndex)) =
     [ {| ancestor := toIdObject a; descendant := toIdObject b |} ]) /\
  (forall (a : Network) disableIndex,
     networkGenealogies
       (collectNetworks (Options.mk [Some a; Some a] disableIndex)) = []).
Proof.
  split; [exact pairwise_adjacent|].
  split; [exact pairwise_duplicate|].
  split.
  - intros a a' b di Hid Hneq Haa Hab.
    rewrite collectNetworks_genealogies. cbn [Options.networks].
    unfold sortedBatch. cbn [present].
    rewrite sortByHeight_of_sorted.
    + cbn [map]. rewrite pairwise_duplicate by exact Hid.
      rewrite pairwise_adjacent. cbn [adjacent filter].
      unfold distinct. cbn [fst snd].
      replace (same_id (toIdObject a) (toIdObject b)) with false
        by (symmetry; apply same_id_false; exact Hneq).
      reflexivity.
    + repeat constructor; unfold byHeight in *; try assumption; lia.
  - intros a di. rewrite collectNetworks_genealogies. cbn [Options.networks].
    unfold sortedBatch. cbn [present].
    rewrite sortByHeight_of_sorted.
    + cbn [map]. rewrite pairwise_adjacent. cbn [adjacent filter].
      unfold distinct. cbn [fst snd].
      replace (same_id (toIdObject a) (toIdObject a)) with true
        by (symmetry; apply same_id_true; reflexivity).
      reflexivity.
    + repeat constructor; unfold byHeight; lia.
Qed.

Lemma pairwise_collapses_duplicates_witness :
  network_id n1 = network_id n1 /\
  network_id n1 <> network_id n2 /\
  byHeight n1 n1 /\ byHeight n1 n2 /\
  networkGenealogies
    (collectNetworks (Options.mk [Some n1; Some n1; Some n2] None)) =
  [ {| ancestor := toIdObject n1; descendant := toIdObject n2 |} ] /\
  pairwise [toIdObject n1; toIdObject n1; toIdObject n2] =
  pairwise [toIdObject n1; toIdObject n2].
Proof.
  assert (Hid : network_id n1 = network_id n1) by reflexivity.
  assert (Hneq : network_id n1 <> network_id n2) by (cbn; discriminate).
  assert (H11 : byHeight n1 n1) by (unfold byHeight; cbn; lia).
  assert (H12 : byHeight n1 n2) by (unfold byHeight; cbn; lia).
  refine (conj Hid (conj Hneq (conj H11 (conj H12 (conj _ _))))).
  - exact (proj1 (proj2 (proj2 pairwise_collapses_duplicates))
             n1 n1 n2 None Hid Hneq H11 H12).
  - exact (proj1 (proj2 pairwise_collapses_duplicates)
             (toIdObject n1) (toIdObject n1) [toIdObject n2] eq_refl).
Defined.

(* ===================================================================== *)
(** * findMatchingCandidateOnChain: validation against the chain *)
(* ===================================================================== *)

Section ChainValidator.
Context {W : Type} (env : Env W).

(** One round of the loop: the request goes out, and the answer decides
    between throwing, returning the candidate and going on. *)
Lemma findMatching_step fuel w candidate rest :
  run env (S fuel) w (findMatchingCandidateOnChain (candidate :: rest)) =
  (let (w1, answer) :=
     @env _ w (Web3Request (height (historicBlock candidate))) in
   let '(events, w2, o) :=
     run env fuel w1
       (match answer with
        | inl e => throw e
        | inr response =>
            if confirms response candidate
            then ret (Some (toIdObject candidate))
            else findMatchingCandidateOnChain rest
        end) in
   (Asked (height (historicBlock candidate)) answer :: events, w2, o)).
Proof.
  cbn [findMatchingCandidateOnChain]. unfold bind, yield.
  rewrite run_unfold. cbn.
  destruct (@env _ w (Web3Request (height (historicBlock candidate))))
    as [w1 answer].
  match goal with
  | |- context [run env fuel w1 (ITree.subst ?K (Ret answer))] =>
      rewrite (run_observe env fuel w1 (ITree.subst K (Ret answer)) (K answer))
        by reflexivity
  end.
  destruct answer as [e|response]; reflexivity.
Qed.

Lemma findMatching_nil fuel w :
  run env fuel w (findMatchingCandidateOnChain []) = ([], w, Some (inr None)).
Proof. rewrite run_unfold. reflexivity. Qed.

End ChainValidator.

Section ChainValidatorRuns.
Context {W : Type} (env : Env W).

Lemma Runs_findMatching_hit w candidate rest w1 response :
  @env _ w (Web3Request (height (historicBlock candidate))) =
    (w1, inr response) ->
  confirms response candidate = true ->
  Runs env w (findMatchingCandidateOnChain (candidate :: rest))
    [Asked (height (historicBlock candidate)) (inr response)] w1
    (inr (Some (toIdObject candidate))).
Proof.
  intros Henv Hc. exists 1%nat.
  rewrite findMatching_step, Henv, Hc. reflexivity.
Qed.

Lemma Runs_findMatching_miss w candidate rest w1 response events w2 o :
  @env _ w (Web3Request (height (historicBlock candidate))) =
    (w1, inr response) ->
  confirms response candidate = false ->
  Runs env w1 (findMatchingCandidateOnChain rest) events w2 o ->
  Runs env w (findMatchingCandidateOnChain (candidate :: rest))
    (Asked (height (historicBlock candidate)) (inr response) :: events)
    w2 o.
Proof.
  intros Henv Hc [fuel Hrun]. exists (S fuel).
  rewrite findMatching_step, Henv, Hc, Hrun. reflexivity.
Qed.

Lemma Runs_findMatching_fail w candidate rest w1 e :
  @env _ w (Web3Request (height (historicBlock candidate))) =
    (w1, inl e) ->
  Runs env w (findMatchingCandidateOnChain (candidate :: rest))
    [Asked (height (historicBlock candidate)) (inl e)] w1 (inl e).
Proof.
  intros Henv. exists 1%nat.
  rewrite findMatching_step, Henv. reflexivity.
Qed.

(** The validator always finishes: it asks at most once per candidate. *)
Lemma findMatching_terminates cs : forall w,
  exists events w' o,
    Runs env w (findMatchingCandidateOnChain cs) events w' o.
Proof.
  induction cs as [|c rest IH]; intros w.
  - exists [], w, (inr None). exists 0%nat. apply findMatching_nil.
  - destruct (@env _ w (Web3Request (height (historicBlock c))))
      as [w1 [e|response]] eqn:Henv.
    + do 3 eexists. eapply Runs_findMatching_fail. exact Henv.
    + destruct (confirms response c) eqn:Hc.
      * do 3 eexists. eapply Runs_findMatching_hit; eassumption.
      * destruct (IH w1) as (events & w2 & o & Hrest).
        do 3 eexists. eapply Runs_findMatching_miss; eassumption.
Qed.

End ChainValidatorRuns.

(** C5. Against a chain that answers every query, the validator returns
    the first candidate in list order whose recorded (height, hash) is the
    chain's block at that height, having asked the chain about the
    candidates up to and including that one and about none after it; it
    returns none, having asked about all, when no candidate matches; and on
    [A (mismatch), B (match), C (match)] it returns [B]. *)
Theorem findMatchingCandidateOnChain_first_match
  {W : Type} (env : Env W) (chain : Z -> option Web3.Response) :
  ChainView env chain ->
  (forall before candidate after w,
     Forall (fun c => matchesChain chain c = false) before ->
     matchesChain chain candidate = true ->
     exists w',
       Runs env w
         (findMatchingCandidateOnChain (before ++ candidate :: after))
         (map (asked chain) (before ++ [candidate])) w'
         (inr (Some (toIdObject candidate)))) /\
  (forall candidates w,
     Forall (fun c => matchesChain chain c = false) candidates ->
     exists w',
       Runs env w (findMatchingCandidateOnChain candidates)
         (map (asked chain) candidates) w' (inr None)) /\
  (forall A B C w,
     matchesChain chain A = false ->
     matchesChain chain B = true ->
     matchesChain chain C = true ->
     exists w',
       Runs env w (findMatchingCandidateOnChain [A; B; C])
         [asked chain A; asked chain B] w' (inr (Some (toIdObject B)))).
Proof.
  intros Hview.
  assert (Hask : forall w c,
             @env _ w (Web3Request (height (historicBlock c))) =
             (fst (@env _ w (Web3Request (height (historicBlock c)))),
              inr (chain (height (historicBlock c))))).
  { intros w c. specialize (Hview w (height (historicBlock c))).
    destruct (@env _ w (Web3Request (height (historicBlock c)))) as [w1 a].
    cbn in *. rewrite Hview. reflexivity. }
  assert (Hfirst : forall before candidate after w,
     Forall (fun c => matchesChain chain c = false) before ->
     matchesChain chain candidate = true ->
     exists w',
       Runs env w
         (findMatchingCandidateOnChain (before ++ candidate :: after))
         (map (asked chain) (before ++ [candidate])) w'
         (inr (Some (toIdObject candidate)))).
  { induction before as [|a before IH]; intros candidate after w Hb Hc.
    - eexists. cbn [app map]. unfold asked.
      eapply Runs_findMatching_hit; [apply Hask | exact Hc].
    - inversion Hb as [|? ? Ha Hb']; subst.
      destruct (IH candidate after
                  (fst (@env _ w (Web3Request (height (historicBlock a)))))
                  Hb' Hc) as [w' Hrun].
      exists w'. cbn [app map]. unfold asked at 1.
      eapply Runs_findMatching_miss; [apply Hask | exact Ha | exact Hrun]. }
  split; [exact Hfirst|]. split.
  - intros cs. induction cs as [|a cs IH]; intros w Hall.
    + exists w. exists 0%nat. apply findMatching_nil.
    + inversion Hall as [|? ? Ha Hall']; subst.
      destruct (IH (fst (@env _ w (Web3Request (height (historicBlock a)))))
                  Hall') as [w' Hrun].
      exists w'. cbn [map]. unfold asked at 1.
      eapply Runs_findMatching_miss; [apply Hask | exact Ha | exact Hrun].
  - intros A B C w HA HB HC.
    apply (Hfirst [A] B [C] w); [constructor; [exact HA | constructor] | exact HB].
Qed.

Lemma findMatchingCandidateOnChain_first_match_witness :
  ChainView (exampleEnv [] exampleChain) exampleChain /\
  (exists w',
     Runs (exampleEnv [] exampleChain) tt
       (findMatchingCandidateOnChain [n0_forked; n1; n2])
       [asked exampleChain n0_forked; asked exampleChain n1] w'
       (inr (Some (toIdObject n1)))) /\
  (exists w',
     Runs (exampleEnv [] exampleChain) tt
       (findMatchingCandidateOnChain [n0_forked; n3_beyond])
       (map (asked exampleChain) [n0_forked; n3_beyond]) w' (inr None)).
Proof.
  assert (Hview : ChainView (exampleEnv [] exampleChain) exampleChain)
    by (intros w h; reflexivity).
  pose proof (findMatchingCandidateOnChain_first_match Hview)
    as (Hfirst & Hnone & Habc).
  refine (conj Hview (conj _ _)).
  - apply (Habc n0_forked n1 n2 tt); reflexivity.
  - apply (Hnone [n0_forked; n3_beyond] tt).
    repeat constructor.
Defined.

(** C8. When the chain has no block at the candidate's height (the
    response is missing, or its [result] is) the candidate does not match
    and the validator goes on with the next candidate: the run is the
    request followed by the run over the remaining candidates.  When the
    query itself fails, the failure leaves the validator as the exception
    it was raised with, [ChainQueryError] for a failure of the chain
    client, after that one request; this is not the outcome of a
    non-match. *)
Theorem findMatchingCandidateOnChain_miss_or_failure
  {W : Type} (env : Env W) (w w1 : W) (candidate : Network)
  (rest : list Network) (fuel : nat) :
  let request := Web3Request (height (historicBlock candidate)) in
  (forall response,
     @env _ w request = (w1, inr response) ->
     response = None \/
     (exists r, response = Some r /\ Web3.result r = None) ->
     run env (S fuel) w (findMatchingCandidateOnChain (candidate :: rest)) =
     (let '(events, w2, o) :=
        run env fuel w1 (findMatchingCandidateOnChain rest) in
      (Asked (height (historicBlock candidate)) (inr response) :: events,
       w2, o))) /\
  (forall e,
     @env _ w request = (w1, inl e) ->
     run env (S fuel) w (findMatchingCandidateOnChain (candidate :: rest)) =
     ([Asked (height (historicBlock candidate)) (inl e)], w1,
      Some (inl e))) /\
  (@env _ w request = (w1, inl ChainQueryError) ->
   Runs env w (findMatchingCandidateOnChain (candidate :: rest))
     [Asked (height (historicBlock candidate)) (inl ChainQueryError)] w1
     (inl ChainQueryError)).
Proof.
  cbv zeta. split; [|split].
  - intros response Henv Hmiss. rewrite findMatching_step, Henv.
    assert (Hc : confirms response candidate = false).
    { destruct Hmiss as [->|(r & -> & Hr)]; [reflexivity|].
      cbn. rewrite Hr. reflexivity. }
    rewrite Hc. reflexivity.
  - intros e Henv. rewrite findMatching_step, Henv.
    rewrite run_unfold. reflexivity.
  - intros Henv. apply Runs_findMatching_fail. exact Henv.
Qed.

Lemma findMatchingCandidateOnChain_miss_or_failure_witness :
  run (exampleEnv [] exampleChain) 2 tt
    (findMatchingCandidateOnChain [n3_beyond; n1]) =
  ([Asked 300 (inr (Some {| Web3.result := None |}));
    Asked 100 (inr (blockWith "0xaa"))], tt,
   Some (inr (Some (toIdObject n1)))) /\
  run (failingChainEnv []) 2 tt
    (findMatchingCandidateOnChain [n3_beyond; n1]) =
  ([Asked 300 (inl ChainQueryError)], tt, Some (inl ChainQueryError)) /\
  Runs (failingChainEnv []) tt
    (findMatchingCandidateOnChain [n3_beyond; n1])
    [Asked 300 (inl ChainQueryError)] tt (inl ChainQueryError).
Proof.
  refine (conj _ (conj _ _)).
  - exact (proj1 (@findMatchingCandidateOnChain_miss_or_failure
                    unit (exampleEnv [] exampleChain) tt tt n3_beyond [n1] 1)
             (Some {| Web3.result := None |}) eq_refl
             (or_intror (ex_intro _ {| Web3.result := None |}
                           (conj eq_refl eq_refl)))).
  - exact (proj1 (proj2 (@findMatchingCandidateOnChain_miss_or_failure
                    unit (failingChainEnv []) tt tt n3_beyond [n1] 1))
             ChainQueryError eq_refl).
  - exact (proj2 (proj2 (@findMatchingCandidateOnChain_miss_or_failure
                    unit (failingChainEnv []) tt tt n3_beyond [n1] 1))
             eq_refl).
Defined.

(** C10, as the code has it.  The comparison is [===] on the two strings:
    the candidate is confirmed when the hash the chain reports is the same
    string as the recorded one, and is passed over when the strings
    differ, whatever they denote. *)
Theorem findMatchingCandidateOnChain_exact_hash
  {W : Type} (env : Env W) (w w1 : W) (candidate : Network)
  (rest : list Network) (fuel : nat) (reported : string) :
  @env _ w (Web3Request (height (historicBlock candidate))) =
    (w1, inr (blockWith reported)) ->
  (reported = hash (historicBlock candidate) ->
   run env (S fuel) w (findMatchingCandidateOnChain (candidate :: rest)) =
   ([Asked (height (historicBlock candidate)) (inr (blockWith reported))],
    w1, Some (inr (Some (toIdObject candidate))))) /\
  (reported <> hash (historicBlock candidate) ->
   run env (S fuel) w (findMatchingCandidateOnChain (candidate :: rest)) =
   (let '(events, w2, o) :=
      run env fuel w1 (findMatchingCandidateOnChain rest) in
    (Asked (height (historicBlock candidate)) (inr (blockWith reported))
       :: events, w2, o))).
Proof.
  intros Henv. split; intros Hhash; rewrite findMatching_step, Henv.
  - assert (Hc : confirms (blockWith reported) candidate = true)
      by (cbn; apply String.eqb_eq; exact Hhash).
    rewrite Hc. rewrite run_unfold. reflexivity.
  - assert (Hc : confirms (blockWith reported) candidate = false)
      by (cbn; apply String.eqb_neq; exact Hhash).
    rewrite Hc. reflexivity.
Qed.

Lemma findMatchingCandidateOnChain_exact_hash_witness :
  run (exampleEnv [] exampleChain) 1 tt
    (findMatchingCandidateOnChain [n1]) =
  ([Asked 100 (inr (blockWith "0xaa"))], tt,
   Some (inr (Some (toIdObject n1)))) /\
  run (exampleEnv [] exampleChain) 1 tt
    (findMatchingCandidateOnChain [n1_upper]) =
  ([Asked 100 (inr (blockWith "0xaa"))], tt, Some (inr None)).
Proof.
  split.
  - exact (proj1 (@findMatchingCandidateOnChain_exact_hash
                    unit (exampleEnv [] exampleChain) tt tt n1 [] 0 "0xaa"
                    eq_refl) eq_refl).
  - refine (proj2 (@findMatchingCandidateOnChain_exact_hash
                    unit (exampleEnv [] exampleChain) tt tt n1_upper [] 0
                    "0xaa" eq_refl) _).
    cbn. discriminate.
Defined.

(** C10, refuted as stated: the candidate is recorded with the hash "0xAA",
    the chain reports "0xaa" at its height, and the validator returns no
    match. *)
Lemma findMatchingCandidateOnChain_case_sensitive :
  exampleChain (height (historicBlock n1_upper)) = blockWith "0xaa" /\
  hash (historicBlock n1_upper) = "0xAA" /\
  Runs (exampleEnv [] exampleChain) tt
    (findMatchingCandidateOnChain [n1_upper])
    [Asked 100 (inr (blockWith "0xaa"))] tt (inr None) /\
  ~ Runs (exampleEnv [] exampleChain) tt
      (findMatchingCandidateOnChain [n1_upper])
      [Asked 100 (inr (blockWith "0xaa"))] tt
      (inr (Some (toIdObject n1_upper))).
Proof.
  assert (Hrun : Runs (exampleEnv [] exampleChain) tt
                   (findMatchingCandidateOnChain [n1_upper])
                   [Asked 100 (inr (blockWith "0xaa"))] tt (inr None))
    by (exists 1%nat; reflexivity).
  repeat split; try exact Hrun.
  intros Hother.
  destruct (Runs_det Hrun Hother) as (_ & _ & Habs). discriminate.
Qed.

(* ===================================================================== *)
(** * The shape of every run of the two loops *)
(* ===================================================================== *)

Section Shapes.
Context {W : Type} (env : Env W).

Lemma findMatching_shape cs : forall w,
  Always env w (findMatchingCandidateOnChain cs)
    (fun events _ o => ValidationLog cs events o).
Proof.
  induction cs as [|c rest IH]; intros w.
  - apply Always_Ret. constructor.
  - cbn [findMatchingCandidateOnChain]. apply Always_then, Always_yield.
    + constructor.
    + intros w1 [e|response] _; cbn [log].
      * constructor.
      * destruct (confirms response c) eqn:Hc.
        -- apply Always_Ret. cbn [app]. constructor. exact Hc.
        -- eapply Always_weaken; [apply IH|].
           intros events w2 o Hrest. cbn [app].
           constructor; assumption.
Qed.

(** The query step: no request when the network is [undefined]; else one
    request, and a failed one ends in a [TypeError]. *)
Lemma Always_queryNext w relation network tried disableIndex
  (Q : list Event -> W -> option (Exn + CandidateSearchResult) -> Prop) :
  match network with
  | None => Q [] w (Some (inl TypeError))
  | Some n =>
      Q [] w None /\
      forall w1 answer,
        @env _ w (ResourcesGet relation (id n) tried (truthy disableIndex)) =
          (w1, answer) ->
        Q [Queried relation (id n) tried (truthy disableIndex) answer] w1
          (Some match answer with
                | inl _ => inl TypeError
                | inr r => inr r
                end)
  end ->
  Always env w
    (queryNextPossiblyRelatedNetworks relation network tried disableIndex) Q.
Proof.
  intros H. unfold queryNextPossiblyRelatedNetworks.
  apply Always_then, Always_try_catch.
  destruct network as [n|].
  - destruct H as [Hnone Hanswer].
    apply Always_then, Always_yield; [exact Hnone|].
    intros w1 [e|r] Henv; cbn [log].
    + apply Always_Ret, Always_Ret. rewrite !app_nil_r.
      exact (Hanswer w1 (inl e) Henv).
    + apply Always_Ret, Always_Ret. rewrite !app_nil_r.
      exact (Hanswer w1 (inr r) Henv).
  - apply Always_Ret, Always_Ret, Always_Ret. exact H.
Qed.

Lemma findRelation_shape w relation network disableIndex :
  Always env w (findRelation relation network disableIndex)
    (fun events _ o =>
       SearchLog relation network (truthy disableIndex) [] events o).
Proof.
  unfold findRelation.
  refine (Always_do_while (env := env) _
            (fun events (_ : W) tried =>
               forall events' o,
                 SearchLog relation network (truthy disableIndex)
                   tried events' o ->
                 SearchLog relation network (truthy disableIndex)
                   [] (events ++ events') o)
            (fun events (_ : W) o =>
               SearchLog relation network (truthy disableIndex)
                 [] events o)
            _ _ [] w [] _).
  - intros events _ tried Hinv. rewrite <- (app_nil_r events).
    apply Hinv. constructor.
  - intros events w0 tried Hinv. unfold searchRound.
    apply Always_then, Always_queryNext.
    destruct network as [n|].
    + split; [apply Hinv; constructor|].
      intros w1 [e|r] _.
      * apply Hinv. econstructor. reflexivity.
      * apply Always_then.
        eapply Always_weaken; [apply findMatching_shape|].
        intros ev2 w2 [[e|[m|]]|] Hval.
        -- apply Hinv. cbn [app]. eapply SL_validation;
             [reflexivity | exact Hval | discriminate].
        -- apply Always_Ret. rewrite app_nil_r. apply Hinv. cbn [app].
           eapply SL_validation; [reflexivity | exact Hval | discriminate].
        -- destruct (candidates r) as [|c cs] eqn:Hcs.
           ++ apply Always_Ret. rewrite app_nil_r. apply Hinv. cbn [app].
              eapply SL_exhausted; [reflexivity | rewrite Hcs; exact Hval | exact Hcs].
           ++ cbn [List.length].
              replace (0 <? Z.of_nat (S (List.length cs))) with true
                by (symmetry; apply Z.ltb_lt; lia).
              apply Always_Ret. rewrite app_nil_r.
              intros events' o Hnext. rewrite <- app_assoc. apply Hinv.
              cbn [app]. eapply SL_again;
                [reflexivity | rewrite Hcs; exact Hval
                | rewrite Hcs; discriminate | exact Hnext].
        -- apply Hinv. cbn [app]. eapply SL_validation;
             [reflexivity | exact Hval | discriminate].
    + apply Hinv. apply SL_undefined. reflexivity.
  - intros events' o H. exact H.
Qed.

End Shapes.

(* ===================================================================== *)
(** * What the shapes say about a log *)
(* ===================================================================== *)

Lemma exchanges_app ev1 ev2 :
  exchanges (ev1 ++ ev2) = exchanges ev1 ++ exchanges ev2.
Proof.
  induction ev1 as [|e ev1 IH]; [reflexivity|].
  destruct e; cbn; rewrite IH; reflexivity.
Qed.

Lemma loads_app ev1 ev2 : loads (ev1 ++ ev2) = loads ev1 ++ loads ev2.
Proof.
  induction ev1 as [|e ev1 IH]; [reflexivity|].
  destruct e; cbn; rewrite IH; reflexivity.
Qed.

Lemma isSearch_loads events : Forall isSearch events -> loads events = [].
Proof.
  induction 1 as [|e events He _ IH]; [reflexivity|].
  destruct e; cbn in *; try exact IH. contradiction.
Qed.

Lemma ValidationLog_asks cs events o :
  ValidationLog cs events o ->
  Forall isSearch events /\ exchanges events = [] /\
  forall seen, neverRetried seen events.
Proof.
  induction 1 as [| | | |c rest response events o Hc Hrest IH];
    try (repeat split; repeat constructor; fail).
  destruct IH as (Hs & Hx & Hn).
  split; [constructor; [exact I | exact Hs]|].
  split; [exact Hx|]. intros seen. cbn. apply Hn.
Qed.

Lemma ValidationLog_answered cs events v :
  ValidationLog cs events (Some (inr v)) -> Forall isAnswered events.
Proof.
  remember (Some (inr v)) as o eqn:Ho.
  induction 1; try discriminate; repeat constructor; auto.
Qed.

Lemma ValidationLog_found cs events m :
  ValidationLog cs events (Some (inr (Some m))) ->
  exists before c response,
    In c cs /\ m = toIdObject c /\ confirms response c = true /\
    events = before ++ [Asked (height (historicBlock c)) (inr response)].
Proof.
  remember (Some (inr (Some m))) as o eqn:Ho.
  induction 1 as [| | |c rest response Hc
                 |c rest response events o Hc Hrest IH]; try discriminate.
  - inversion Ho; subst. exists [], c, response.
    repeat split; [left; reflexivity | exact Hc].
  - destruct (IH Ho) as (before & c' & response' & Hin & Hm & Hc' & Hev).
    exists (Asked (height (historicBlock c)) (inr response) :: before),
      c', response'.
    repeat split; [right; exact Hin | exact Hm | exact Hc' |].
    rewrite Hev. reflexivity.
Qed.

Lemma ValidationLog_failed cs events e :
  ValidationLog cs events (Some (inl e)) ->
  exists before height, events = before ++ [Asked height (inl e)].
Proof.
  remember (Some (inl e)) as o eqn:Ho.
  induction 1 as [| |c rest e'| |c rest response events o Hc Hrest IH];
    try discriminate.
  - inversion Ho; subst. exists [], (height (historicBlock c)). reflexivity.
  - destruct (IH Ho) as (before & h & Hev).
    exists (Asked (height (historicBlock c)) (inr response) :: before), h.
    rewrite Hev. reflexivity.
Qed.

Lemma ValidationLog_nil events o :
  ValidationLog [] events o -> events = [] /\ o = Some (inr None).
Proof. inversion 1. auto. Qed.

Section SearchLogFacts.
Variables (relation : Relation) (network : option IdObject)
  (disableIndex : bool).

Lemma SearchLog_isSearch tried events o :
  SearchLog relation network disableIndex tried events o ->
  Forall isSearch events.
Proof.
  induction 1 as [ | | |tried n r events o Hn Hval Ho
                 |tried n r events Hn Hval Hcs
                 |tried n r events events' o Hn Hval Hcs Hnext IH];
    repeat constructor;
    try (apply ValidationLog_asks in Hval; tauto).
  apply Forall_app. split; [apply ValidationLog_asks in Hval; tauto | exact IH].
Qed.

Lemma SearchLog_answered tried events v :
  SearchLog relation network disableIndex tried events (Some (inr v)) ->
  Forall isAnswered events.
Proof.
  remember (Some (inr v)) as o eqn:Ho.
  induction 1 as [ | | |tried n r events o Hn Hval Hne
                 |tried n r events Hn Hval Hcs
                 |tried n r events events' o Hn Hval Hcs Hnext IH];
    try discriminate; subst.
  - constructor; [exact I|]. eapply ValidationLog_answered; exact Hval.
  - constructor; [exact I|]. eapply ValidationLog_answered; exact Hval.
  - constructor; [exact I|]. apply Forall_app. split.
    + eapply ValidationLog_answered; exact Hval.
    + apply IH. reflexivity.
Qed.

Lemma SearchLog_linked tried events o :
  SearchLog relation network disableIndex tried events o ->
  linked (Some tried) (exchanges events).
Proof.
  induction 1 as [ | | |tried n r events o Hn Hval Hne
                 |tried n r events Hn Hval Hcs
                 |tried n r events events' o Hn Hval Hcs Hnext IH];
    cbn [exchanges linked]; auto.
  - split; [reflexivity|].
    apply ValidationLog_asks in Hval. destruct Hval as (_ & -> & _). exact I.
  - split; [reflexivity|].
    apply ValidationLog_asks in Hval. destruct Hval as (_ & -> & _). exact I.
  - split; [reflexivity|]. rewrite exchanges_app.
    apply ValidationLog_asks in Hval. destruct Hval as (_ & -> & _).
    exact IH.
Qed.

Lemma SearchLog_found tried events m :
  SearchLog relation network disableIndex tried events
    (Some (inr (Some m))) ->
  exists n sent r c,
    network = Some n /\
    In (Queried relation (id n) sent disableIndex (inr r)) events /\
    In c (candidates r) /\ m = toIdObject c.
Proof.
  remember (Some (inr (Some m))) as o eqn:Ho.
  induction 1 as [ | | |tried n r events o Hn Hval Hne
                 |tried n r events Hn Hval Hcs
                 |tried n r events events' o Hn Hval Hcs Hnext IH];
    try discriminate; subst.
  - apply ValidationLog_found in Hval.
    destruct Hval as (_ & c & _ & Hin & Hm & _).
    exists n, tried, r, c. repeat split; auto. left. reflexivity.
  - destruct (IH eq_refl) as (n' & sent & r' & c & Hn' & Hin & Hc & Hm).
    exists n', sent, r', c. repeat split; auto.
    right. apply in_or_app. right. exact Hin.
Qed.

End SearchLogFacts.

(* ===================================================================== *)
(** * findRelation: the exclusion list and termination *)
(* ===================================================================== *)

Lemma mem_In x l : mem x l = true <-> In x l.
Proof.
  unfold mem. rewrite existsb_exists. split.
  - intros (y & Hy & Heq). apply String.eqb_eq in Heq. subst. exact Hy.
  - intros H. exists x. split; [exact H | apply String.eqb_refl].
Qed.

Lemma filter_length_mono {A} (p q : A -> bool) l :
  (forall x, In x l -> q x = true -> p x = true) ->
  (List.length (filter q l) <= List.length (filter p l))%nat.
Proof.
  induction l as [|a l IH]; intros H; [reflexivity|].
  cbn [filter].
  assert (IH' := IH (fun x Hx => H x (or_intror Hx))).
  pose proof (H a (or_introl eq_refl)) as Ha.
  destruct (q a), (p a); cbn [List.length];
    try (specialize (Ha eq_refl); discriminate); lia.
Qed.

Lemma filter_length_strict {A} (p q : A -> bool) l c :
  (forall x, In x l -> q x = true -> p x = true) ->
  In c l -> p c = true -> q c = false ->
  (List.length (filter q l) < List.length (filter p l))%nat.
Proof.
  induction l as [|a l IH]; intros H Hin Hp Hq; [contradiction|].
  cbn [filter].
  pose proof (filter_length_mono p q l (fun x Hx => H x (or_intror Hx))) as Hle.
  destruct Hin as [->|Hin].
  - rewrite Hp, Hq. cbn [List.length]. lia.
  - assert (IH' := IH (fun x Hx => H x (or_intror Hx)) Hin Hp Hq).
    pose proof (H a (or_introl eq_refl)) as Ha.
    destruct (q a), (p a); cbn [List.length];
      try (specialize (Ha eq_refl); discriminate); lia.
Qed.

(** A new id in the exclusion list leaves fewer untried ones. *)
Lemma untried_decreases pool tried tried' c :
  (forall x, In x tried -> In x tried') ->
  In c pool -> ~ In c tried -> In c tried' ->
  (List.length (untried pool tried') < List.length (untried pool tried))%nat.
Proof.
  intros Hsub Hpool Hnot Hin. unfold untried.
  apply filter_length_strict with (c := c); [|exact Hpool| |].
  - intros x _ Hx. apply negb_true_iff in Hx. apply negb_true_iff.
    destruct (mem x tried) eqn:E; [|reflexivity].
    apply mem_In in E. apply Hsub, mem_In in E. congruence.
  - apply negb_true_iff. destruct (mem c tried) eqn:E; [|reflexivity].
    apply mem_In in E. contradiction.
  - apply negb_false_iff, mem_In. exact Hin.
Qed.

Lemma neverRetried_app seen ev1 ev2 :
  exchanges ev1 = [] ->
  neverRetried seen (ev1 ++ ev2) <-> neverRetried seen ev2.
Proof.
  induction ev1 as [|e ev1 IH]; intros Hx; [reflexivity|].
  destruct e; cbn in Hx; try discriminate; cbn; apply IH; exact Hx.
Qed.

Section CandidateSearch.
Context {W : Type} (env : Env W).

Lemma Runs_events_eq {R} w (t : itree ProcessE R) events events' w' r :
  Runs env w t events w' r -> events = events' ->
  Runs env w t events' w' r.
Proof. intros H <-. exact H. Qed.

Lemma Runs_queryNext w relation n tried disableIndex w1 r :
  @env _ w (ResourcesGet relation (id n) tried (truthy disableIndex)) =
    (w1, inr r) ->
  Runs env w
    (queryNextPossiblyRelatedNetworks relation (Some n) tried disableIndex)
    [Queried relation (id n) tried (truthy disableIndex) (inr r)] w1
    (inr r).
Proof.
  intros Henv. unfold queryNextPossiblyRelatedNetworks.
  eapply Runs_events_eq.
  - eapply Runs_then;
      [apply Runs_try_returns;
       eapply Runs_then; [apply Runs_yield; exact Henv | apply Runs_ret]
      | apply Runs_ret].
  - reflexivity.
Qed.

(** One round, once the store has answered and the validation is done. *)
Lemma Runs_searchRound w relation n tried disableIndex w1 r events w2 o :
  @env _ w (ResourcesGet relation (id n) tried (truthy disableIndex)) =
    (w1, inr r) ->
  Runs env w1 (findMatchingCandidateOnChain (candidates r)) events w2 o ->
  Runs env w (searchRound relation (Some n) disableIndex tried)
    (Queried relation (id n) tried (truthy disableIndex) (inr r) :: events)
    w2
    (match o with
     | inl e => inl e
     | inr (Some m) => inr (inr (Some m))
     | inr None =>
         if 0 <? Z.of_nat (List.length (candidates r))
         then inr (inl (alreadyTried r))
         else inr (inr None)
     end).
Proof.
  intros Henv Hval. unfold searchRound.
  destruct o as [e|[m|]].
  - eapply Runs_events_eq.
    + eapply Runs_then; [apply Runs_queryNext; exact Henv|].
      apply Runs_then_throw. exact Hval.
    + reflexivity.
  - eapply Runs_events_eq.
    + eapply Runs_then; [apply Runs_queryNext; exact Henv|].
      eapply Runs_then; [exact Hval | apply Runs_ret].
    + cbn [app]. rewrite app_nil_r. reflexivity.
  - eapply Runs_events_eq.
    + eapply Runs_then; [apply Runs_queryNext; exact Henv|].
      eapply Runs_then; [exact Hval|].
      destruct (0 <? Z.of_nat (List.length (candidates r))); apply Runs_ret.
    + cbn [app]. rewrite app_nil_r. reflexivity.
Qed.

End CandidateSearch.

Section SearchTermination.
Context {W : Type} (env : Env W) (pool : list string).
Hypothesis Hstore : HonorsExclusion env pool.
Variables (relation : Relation) (n : IdObject) (disableIndex : option bool).

(** By induction on the number of untried ids of the pool: every round
    that goes round again has put a new id of the pool in the list. *)
Lemma search_terminates : forall measure tried,
  List.length (untried pool tried) = measure ->
  forall w seen,
    (forall x, In x seen -> In x tried) ->
    exists events w' o,
      Runs env w
        (do_while (searchRound relation (Some n) disableIndex) tried)
        events w' o /\
      (List.length (exchanges events) <= measure + 1)%nat /\
      neverRetried seen events /\
      SearchEnd relation n (truthy disableIndex) events o.
Proof.
  induction measure as [measure IH] using lt_wf_ind.
  intros tried Hmeasure w seen Hseen.
  destruct (Hstore w relation (id n) tried (truthy disableIndex))
    as (r & Hanswer & Hfresh & Hkeeps & Hadds).
  destruct (@env _ w (ResourcesGet relation (id n) tried (truthy disableIndex)))
    as [w1 answer] eqn:Henv.
  cbn [snd] in Hanswer. subst answer.
  destruct (findMatching_terminates env (candidates r) w1)
    as (ev2 & w2 & o2 & Hval).
  pose proof (Always_Runs (findMatching_shape env (candidates r) w1) Hval)
    as Hshape.
  cbv beta in Hshape.
  pose proof (@Runs_searchRound _ env _ _ _ _ _ _ _ _ _ _ Henv Hval)
    as Hround.
  destruct (ValidationLog_asks Hshape) as (_ & Hquiet & Hnever).
  assert (Hnew : forall c, In c (candidates r) -> ~ In (network_id c) seen)
    by (intros c Hc Hin; apply (proj2 (Hfresh c Hc)), Hseen, Hin).
  destruct o2 as [e|[m|]].
  - exists (Queried relation (id n) tried (truthy disableIndex) (inr r) :: ev2),
      w2, (inl e).
    split; [apply Runs_do_while_stop; exact Hround|].
    split; [cbn [exchanges List.length]; rewrite Hquiet; cbn; lia|].
    split; [cbn [neverRetried]; split; [exact Hnew | apply Hnever]|].
    right. right.
    destruct (ValidationLog_failed Hshape) as (before & h & ->).
    exists (Queried relation (id n) tried (truthy disableIndex) (inr r)
              :: before), h, e.
    split; reflexivity.
  - exists (Queried relation (id n) tried (truthy disableIndex) (inr r) :: ev2),
      w2, (inr (Some m)).
    split; [apply Runs_do_while_stop; exact Hround|].
    split; [cbn [exchanges List.length]; rewrite Hquiet; cbn; lia|].
    split; [cbn [neverRetried]; split; [exact Hnew | apply Hnever]|].
    left.
    destruct (ValidationLog_found Hshape)
      as (before & c & response & _ & -> & Hc & ->).
    exists (Queried relation (id n) tried (truthy disableIndex) (inr r)
              :: before), c, response.
    repeat split. exact Hc.
  - destruct (candidates r) as [|c cs] eqn:Hcs.
    + destruct (ValidationLog_nil Hshape) as [-> _].
      exists [Queried relation (id n) tried (truthy disableIndex) (inr r)],
        w2, (inr None).
      split; [apply Runs_do_while_stop; exact Hround|].
      split; [cbn; lia|].
      split; [cbn [neverRetried]; rewrite Hcs; split;
              [intros c [] | exact I]|].
      right. left. exists [], tried, r. repeat split. exact Hcs.
    + cbn [List.length] in Hround.
      replace (0 <? Z.of_nat (S (List.length cs))) with true in Hround
        by (symmetry; apply Z.ltb_lt; lia).
      assert (Hc : In c (c :: cs)) by (left; reflexivity).
      assert (Hlt : (List.length (untried pool (alreadyTried r)) < measure)%nat).
      { rewrite <- Hmeasure.
        apply untried_decreases with (c := network_id c);
          [exact Hkeeps | apply Hfresh, Hc | apply Hfresh, Hc
          | apply Hadds, Hc]. }
      destruct (IH _ Hlt (alreadyTried r) eq_refl w2
                  (seen ++ map network_id (c :: cs)))
        as (ev3 & w3 & o & Hnext & Hcount & Hnever3 & Hend).
      { intros x Hx. apply in_app_or in Hx. destruct Hx as [Hx|Hx].
        - apply Hkeeps, Hseen, Hx.
        - apply in_map_iff in Hx. destruct Hx as (c' & <- & Hc').
          apply Hadds, Hc'. }
      exists ((Queried relation (id n) tried (truthy disableIndex) (inr r)
                 :: ev2) ++ ev3), w3, o.
      split; [eapply Runs_do_while_again; [exact Hround | exact Hnext]|].
      split.
      { rewrite exchanges_app. cbn [exchanges]. rewrite Hquiet.
        cbn [app List.length]. lia. }
      split.
      { cbn [app neverRetried]. rewrite Hcs. split; [exact Hnew|].
        apply neverRetried_app; [exact Hquiet | exact Hnever3]. }
      destruct Hend as [(before & c' & response & Ho & Hconf & ->)
                       |[(before & sent & r' & Ho & Hempty & ->)
                        |(before & h & e & Ho & ->)]].
      * left. exists ((Queried relation (id n) tried (truthy disableIndex)
                         (inr r) :: ev2) ++ before), c', response.
        repeat split; [exact Ho | exact Hconf | apply app_assoc].
      * right. left.
        exists ((Queried relation (id n) tried (truthy disableIndex)
                   (inr r) :: ev2) ++ before), sent, r'.
        repeat split; [exact Ho | exact Hempty | apply app_assoc].
      * right. right.
        exists ((Queried relation (id n) tried (truthy disableIndex)
                   (inr r) :: ev2) ++ before), h, e.
        repeat split; [exact Ho | apply app_assoc].
Qed.

End SearchTermination.

Lemma untried_nil pool : untried pool [] = pool.
Proof.
  induction pool as [|x pool IH]; [reflexivity|].
  change (untried (x :: pool) []) with (x :: untried pool []).
  rewrite IH. reflexivity.
Qed.

Lemma exampleEnv_honors known chain :
  HonorsExclusion (exampleEnv known chain) (map network_id known).
Proof.
  intros w relation networkId tried disableIndex.
  exists (exampleQuery known tried). split; [reflexivity|].
  unfold exampleQuery.
  destruct (filter (fun c => negb (mem (network_id c) tried)) known)
    as [|c rest] eqn:E; cbn [candidates alreadyTried].
  - repeat split; try contradiction; auto.
  - assert (Hc : In c (filter (fun c => negb (mem (network_id c) tried)) known))
      by (rewrite E; left; reflexivity).
    apply filter_In in Hc. destruct Hc as [Hknown Hnot].
    apply negb_true_iff in Hnot.
    split; [|split].
    + intros c' [<-|[]]. split; [apply in_map; exact Hknown|].
      intros Hin. apply mem_In in Hin. congruence.
    + intros x Hx. apply in_or_app. left. exact Hx.
    + intros c' [<-|[]]. apply in_or_app. right. left. reflexivity.
Qed.

(** C6. In every run of a candidate search, finished or not and whatever
    the store and the chain answer, the first store query sends the empty
    exclusion list and every later one sends exactly the [alreadyTried]
    list the query before it returned.  Against a store that honours the
    exclusion list over a finite pool of candidates, the search finishes
    after at most one query more than there are ids in the pool, no query
    returns an id that an earlier one returned, and the search ends when a
    candidate is confirmed or when the returned batch is empty (or with
    the failure of a chain request, which aborts it). *)
Theorem findRelation_exclusion_and_termination :
  (forall W (env : Env W) w relation network disableIndex,
     Always env w (findRelation relation network disableIndex)
       (fun events _ _ => linked (Some []) (exchanges events))) /\
  (forall W (env : Env W) pool,
     HonorsExclusion env pool ->
     forall w relation n disableIndex,
     exists events w' o,
       Runs env w (findRelation relation (Some n) disableIndex)
         events w' o /\
       (List.length (exchanges events) <= List.length pool + 1)%nat /\
       neverRetried [] events /\
       SearchEnd relation n (truthy disableIndex) events o /\
       (Forall isAnswered events -> exists found, o = inr found)).
Proof.
  split.
  - intros W env w relation network disableIndex.
    eapply Always_weaken; [apply findRelation_shape|].
    intros events w' o Hshape. eapply SearchLog_linked. exact Hshape.
  - intros W env pool Hstore w relation n disableIndex.
    destruct (@search_terminates W env pool Hstore relation n disableIndex
                _ [] eq_refl w [])
      as (events & w' & o & Hruns & Hcount & Hnever & Hend).
    { intros x []. }
    exists events, w', o. rewrite untried_nil in Hcount.
    repeat split; try assumption.
    intros Hanswered.
    destruct Hend as [(_ & c & _ & -> & _)
                     |[(_ & _ & _ & -> & _)
                      |(before & h & e & _ & ->)]];
      [eexists; reflexivity | eexists; reflexivity |].
    apply Forall_app in Hanswered. destruct Hanswered as [_ Hlast].
    inversion Hlast as [|? ? Hbad _]; subst. destruct Hbad.
Qed.

Lemma findRelation_exclusion_and_termination_witness :
  HonorsExclusion (exampleEnv [n0_forked; n1] exampleChain) ["n0"; "n1"] /\
  exists events w' o,
    Runs (exampleEnv [n0_forked; n1] exampleChain) tt
      (findRelation Ancestor (Some (toIdObject n2)) None) events w' o /\
    (List.length (exchanges events) <= 2 + 1)%nat /\
    neverRetried [] events /\
    SearchEnd Ancestor (toIdObject n2) false events o /\
    (Forall isAnswered events -> exists found, o = inr found).
Proof.
  pose proof (exampleEnv_honors [n0_forked; n1] exampleChain) as Hstore.
  split; [exact Hstore|].
  exact (proj2 findRelation_exclusion_and_termination unit
           (exampleEnv [n0_forked; n1] exampleChain) ["n0"; "n1"] Hstore
           tt Ancestor (toIdObject n2) None).
Defined.

(* ===================================================================== *)
(** * process: searches, then one load *)
(* ===================================================================== *)

Section Loader.
Context {W : Type} (env : Env W).

(** A search loads nothing, and returns only if all its requests were
    answered. *)
Lemma findRelation_search w relation network disableIndex :
  Always env w (findRelation relation network disableIndex)
    (fun events _ o =>
       Forall isSearch events /\
       forall v, o = Some (inr v) -> Forall isAnswered events).
Proof.
  eapply Always_weaken; [apply findRelation_shape|].
  intros events w' o Hshape. split.
  - eapply SearchLog_isSearch. exact Hshape.
  - intros v ->. eapply SearchLog_answered. exact Hshape.
Qed.

Lemma forEachNetwork_search disableIndex batch : forall genealogies w,
  Always env w (forEachNetwork disableIndex batch genealogies)
    (fun events _ o =>
       Forall isSearch events /\
       forall v, o = Some (inr v) ->
         Forall isAnswered events /\
         exists cross,
           v = genealogies ++ cross /\
           Forall (fun e => In (ancestor e) batch \/ In (descendant e) batch)
                  cross).
Proof.
  induction batch as [|network rest IH]; intros genealogies w.
  - apply Always_Ret. split; [constructor|].
    intros v Hv. inversion Hv; subst. split; [constructor|].
    exists []. rewrite app_nil_r. split; [reflexivity | constructor].
  - cbn [forEachNetwork]. apply Always_then.
    eapply Always_weaken; [apply findRelation_search|].
    intros ev1 w1 [[e|a]|] [Hs1 Ha1];
      try (split; [exact Hs1 | intros v Hv; discriminate]).
    apply Always_then.
    eapply Always_weaken; [apply findRelation_search|].
    intros ev2 w2 [[e|d]|] [Hs2 Ha2];
      try (split; [apply Forall_app; split; assumption
                  | intros v Hv; discriminate]).
    eapply Always_weaken; [apply IH|].
    intros ev3 w3 o [Hs3 Ha3]. split.
    + repeat (apply Forall_app; split); assumption.
    + intros v Hv. destruct (Ha3 v Hv) as (Hans3 & cross & -> & Hcross).
      split.
      * repeat (apply Forall_app; split);
          [exact (Ha1 a eq_refl) | exact (Ha2 d eq_refl) | exact Hans3].
      * assert (Hwiden : Forall (fun e => In (ancestor e) (network :: rest) \/
                                          In (descendant e) (network :: rest))
                           cross).
        { eapply Forall_impl; [|exact Hcross].
          intros x [Hx|Hx]; [left | right]; right; exact Hx. }
        assert (Hup : forall a',
                   In (ancestor {| ancestor := a'; descendant := network |})
                      (network :: rest) \/
                   In (descendant {| ancestor := a'; descendant := network |})
                      (network :: rest))
          by (intros a'; right; left; reflexivity).
        assert (Hdown : forall d',
                   In (ancestor {| ancestor := network; descendant := d' |})
                      (network :: rest) \/
                   In (descendant {| ancestor := network; descendant := d' |})
                      (network :: rest))
          by (intros d'; left; left; reflexivity).
        destruct a as [a|], d as [d|]; rewrite <- ?app_assoc;
          eexists; (split; [reflexivity|]);
          repeat (apply Forall_app; split); try exact Hwiden;
          (constructor; [apply Hup || apply Hdown | constructor]).
Qed.

Lemma process_log w options :
  Always env w (process options)
    (fun events _ o => NoLoadYet events o \/ LoadedOnce options events o).
Proof.
  unfold process.
  destruct (Z.of_nat (List.length (Options.networks options)) =? 0).
  - apply Always_Ret. left. split; [constructor | discriminate].
  - cbv zeta. apply Always_then.
    eapply Always_weaken; [apply findRelation_search|].
    intros ev1 w1 [[e|a]|] [Hs1 Ha1];
      try (left; split; [exact Hs1 | discriminate]).
    apply Always_then.
    eapply Always_weaken; [apply forEachNetwork_search|].
    intros ev2 w2 [[e|genealogies]|] [Hs2 Ha2];
      try (left; split; [apply Forall_app; split; assumption | discriminate]).
    destruct (Ha2 genealogies eq_refl) as (Hans2 & cross & -> & Hcross).
    assert (Hs : Forall isSearch (ev1 ++ ev2))
      by (apply Forall_app; split; assumption).
    assert (Ha : Forall isAnswered (ev1 ++ ev2))
      by (apply Forall_app; split; [exact (Ha1 a eq_refl) | exact Hans2]).
    apply Always_then, Always_yield.
    + left. rewrite app_nil_r. split; [exact Hs | discriminate].
    + intros w3 [e|results] _; cbn [log].
      * right. exists (ev1 ++ ev2), cross, (inl e).
        rewrite app_assoc. repeat split; assumption.
      * apply Always_Ret. right. exists (ev1 ++ ev2), cross, (inr results).
        rewrite app_nil_r, app_assoc. repeat split; assumption.
Qed.

Lemma pushed_edges genealogies network (a d : option IdObject) :
  match d with
  | Some d' =>
      match a with
      | Some a' =>
          genealogies ++ [ {| ancestor := a'; descendant := network |} ]
      | None => genealogies
      end ++ [ {| ancestor := network; descendant := d' |} ]
  | None =>
      match a with
      | Some a' =>
          genealogies ++ [ {| ancestor := a'; descendant := network |} ]
      | None => genealogies
      end
  end = genealogies ++ upEdge a network ++ downEdge network d.
Proof.
  destruct a, d; cbn [upEdge downEdge app];
    rewrite ?app_nil_r, <- ?app_assoc; reflexivity.
Qed.

Lemma forEachNetwork_shape disableIndex batch : forall genealogies w,
  Always env w (forEachNetwork disableIndex batch genealogies)
    (fun events _ o =>
       BatchLog (truthy disableIndex) batch genealogies events o).
Proof.
  induction batch as [|network rest IH]; intros genealogies w.
  - apply Always_Ret. constructor.
  - cbn [forEachNetwork]. apply Always_then.
    eapply Always_weaken; [apply findRelation_shape|].
    intros ev1 w1 [[e|a]|] H1.
    + change (@Some (Exn + list NetworkGenealogyInput) (inl e))
        with (@carried (option IdObject) (list NetworkGenealogyInput)
                (Some (inl e))).
      apply BL_ancestor; [exact H1 | discriminate].
    + apply Always_then.
      eapply Always_weaken; [apply findRelation_shape|].
      intros ev2 w2 [[e|d]|] H2.
      * change (@Some (Exn + list NetworkGenealogyInput) (inl e))
          with (@carried (option IdObject) (list NetworkGenealogyInput)
                  (Some (inl e))).
        eapply BL_descendant; [exact H1 | exact H2 | discriminate].
      * rewrite pushed_edges.
        eapply Always_weaken; [apply IH|].
        intros ev3 w3 o3 H3. eapply BL_next; eassumption.
      * change (@None (Exn + list NetworkGenealogyInput))
          with (@carried (option IdObject) (list NetworkGenealogyInput) None).
        eapply BL_descendant; [exact H1 | exact H2 | discriminate].
    + change (@None (Exn + list NetworkGenealogyInput))
        with (@carried (option IdObject) (list NetworkGenealogyInput) None).
      apply BL_ancestor; [exact H1 | discriminate].
Qed.

Lemma process_shape w options :
  Always env w (process options)
    (fun events _ o => ProcessLog options events o).
Proof.
  unfold process.
  destruct (Z.of_nat (List.length (Options.networks options)) =? 0) eqn:E.
  - apply Always_Ret. apply PL_empty.
    apply Z.eqb_eq in E. destruct (Options.networks options);
      [reflexivity | cbn in E; lia].
  - assert (Hne : Options.networks options <> [])
      by (intros Heq; rewrite Heq in E; discriminate).
    cbv zeta. apply Always_then.
    eapply Always_weaken; [apply findRelation_shape|].
    intros ev1 w1 [[e|found]|] H1.
    + change (@Some (Exn + option (list IdObject)) (inl e))
        with (@carried (option IdObject) (option (list IdObject))
                (Some (inl e))).
      apply PL_lookup; [exact Hne | exact H1 | discriminate].
    + apply Always_then.
      eapply Always_weaken; [apply forEachNetwork_shape|].
      intros ev2 w2 [[e|genealogies]|] H2.
      * change (@Some (Exn + option (list IdObject)) (inl e))
          with (@carried (list NetworkGenealogyInput)
                  (option (list IdObject)) (Some (inl e))).
        eapply PL_searches; [exact Hne | exact H1 | exact H2 | discriminate].
      * apply Always_then, Always_yield.
        -- rewrite app_nil_r. eapply PL_loading; eassumption.
        -- intros w3 [e|results] _; cbn [log].
           ++ exact (PL_loaded _ (inl e) Hne H1 H2).
           ++ apply Always_Ret. rewrite app_nil_r.
              exact (PL_loaded _ (inr results) Hne H1 H2).
      * change (@None (Exn + option (list IdObject)))
          with (@carried (list NetworkGenealogyInput)
                  (option (list IdObject)) None).
        eapply PL_searches; [exact Hne | exact H1 | exact H2 | discriminate].
    + change (@None (Exn + option (list IdObject)))
        with (@carried (option IdObject) (option (list IdObject)) None).
      apply PL_lookup; [exact Hne | exact H1 | discriminate].
Qed.

End Loader.

Lemma loads_last searches inputs answer :
  Forall isSearch searches ->
  loads (searches ++ [Loaded inputs answer]) = [inputs].
Proof.
  intros Hs. rewrite loads_app, (isSearch_loads Hs). reflexivity.
Qed.

(** C7. In every invocation of [process], in every environment and at
    every point of the run, the log has the shape [ProcessLog]: the
    searches in program order and then, only if every search has returned,
    one load of the edges the loop ended with, which are the pairwise
    edges of the batch followed by the edge of every search that found a
    network.  So the log holds at most one load; either nothing is loaded
    (yet) and no results are returned, or the log is a series of searches,
    every request of which was answered, followed by the load as its last
    entry, whose answer is the outcome of the invocation; and a log with a
    failed store or chain request holds no load. *)
Theorem process_loads_once {W : Type} (env : Env W) (w : W)
  (options : Options.t) :
  Always env w (process options)
    (fun events _ o =>
       ProcessLog options events o /\
       (NoLoadYet events o \/ LoadedOnce options events o) /\
       (List.length (loads events) <= 1)%nat /\
       (Exists (fun e => ~ isAnswered e) events -> loads events = [])).
Proof.
  eapply Always_weaken;
    [apply Always_and; [apply process_shape | apply process_log]|].
  intros events w' o [Hshape Hlog]. split; [exact Hshape|].
  split; [exact Hlog|].
  destruct Hlog as [[Hs _]|(searches & cross & answer & -> & Hs & Ha & _)].
  - rewrite (isSearch_loads Hs). split; [cbn; lia | reflexivity].
  - rewrite (loads_last _ _ Hs). split; [cbn; lia|].
    intros Hfail. exfalso.
    apply Exists_app in Hfail. destruct Hfail as [Hfail|Hfail].
    + apply Exists_exists in Hfail. destruct Hfail as (e & Hin & Hne).
      rewrite Forall_forall in Ha. exact (Hne (Ha e Hin)).
    + inversion Hfail as [? ? Hne|? ? Hn]; subst.
      * apply Hne. exact I.
      * inversion Hn.
Qed.

(* ===================================================================== *)
(** * Two failures of the process *)
(* ===================================================================== *)

Lemma ValidationLog_noFailedQuery cs events o :
  ValidationLog cs events o -> ~ Exists isFailedQuery events.
Proof.
  induction 1; intros Hex; inversion Hex; subst; cbn in *; auto;
    match goal with
    | H : Exists _ [] |- _ => inversion H
    end.
Qed.

Lemma SearchLog_failedQuery relation network disableIndex tried events o :
  SearchLog relation network disableIndex tried events o ->
  Exists isFailedQuery events -> o = Some (inl TypeError).
Proof.
  induction 1 as [ | | |tried n r events o Hn Hval Hne
                 |tried n r events Hn Hval Hcs
                 |tried n r events events' o Hn Hval Hcs Hnext IH];
    intros Hex; try reflexivity.
  - inversion Hex.
  - inversion Hex as [? ? Hbad|? ? Hrest]; subst; [destruct Hbad|].
    destruct (ValidationLog_noFailedQuery Hval Hrest).
  - inversion Hex as [? ? Hbad|? ? Hrest]; subst; [destruct Hbad|].
    destruct (ValidationLog_noFailedQuery Hval Hrest).
  - inversion Hex as [? ? Hbad|? ? Hrest]; subst; [destruct Hbad|].
    apply Exists_app in Hrest. destruct Hrest as [Hrest|Hrest].
    + destruct (ValidationLog_noFailedQuery Hval Hrest).
    + exact (IH Hrest).
Qed.

Lemma BatchLog_failedQuery disableIndex batch genealogies events o :
  BatchLog disableIndex batch genealogies events o ->
  Exists isFailedQuery events -> o = Some (inl TypeError).
Proof.
  induction 1 as [genealogies
                 |network rest genealogies events o H1 Hne
                 |network rest genealogies ev1 a ev2 o H1 H2 Hne
                 |network rest genealogies ev1 a ev2 d ev3 o H1 H2 H3 IH];
    intros Hex.
  - inversion Hex.
  - rewrite (SearchLog_failedQuery H1 Hex). reflexivity.
  - apply Exists_app in Hex. destruct Hex as [Hex|Hex].
    + discriminate (SearchLog_failedQuery H1 Hex).
    + rewrite (SearchLog_failedQuery H2 Hex). reflexivity.
  - apply Exists_app in Hex. destruct Hex as [Hex|Hex];
      [discriminate (SearchLog_failedQuery H1 Hex)|].
    apply Exists_app in Hex. destruct Hex as [Hex|Hex];
      [discriminate (SearchLog_failedQuery H2 Hex)|].
    exact (IH Hex).
Qed.

Lemma ProcessLog_failedQuery options events o :
  ProcessLog options events o ->
  Exists isFailedQuery events -> o = Some (inl TypeError).
Proof.
  destruct 1 as [Hempty
                |events o Hne H1 Hstop
                |lookup found events o Hne H1 H2 Hstop
                |lookup found searches genealogies Hne H1 H2
                |lookup found searches genealogies answer Hne H1 H2];
    intros Hex.
  - inversion Hex.
  - rewrite (SearchLog_failedQuery H1 Hex). reflexivity.
  - apply Exists_app in Hex. destruct Hex as [Hex|Hex].
    + discriminate (SearchLog_failedQuery H1 Hex).
    + rewrite (BatchLog_failedQuery H2 Hex). reflexivity.
  - apply Exists_app in Hex. destruct Hex as [Hex|Hex].
    + discriminate (SearchLog_failedQuery H1 Hex).
    + discriminate (BatchLog_failedQuery H2 Hex).
  - apply Exists_app in Hex. destruct Hex as [Hex|Hex];
      [discriminate (SearchLog_failedQuery H1 Hex)|].
    apply Exists_app in Hex. destruct Hex as [Hex|Hex];
      [discriminate (BatchLog_failedQuery H2 Hex)|].
    inversion Hex as [? ? Hbad|? ? Hnil]; subst;
      [destruct Hbad | inversion Hnil].
Qed.

(** C1, where the code departs from it.  A failed store query is caught
    inside [queryNextPossiblyRelatedNetworks] and only logged; the read of
    [result.networks] that follows throws a [TypeError], whatever the
    failure was.  So every invocation of [process] whose log holds a
    failed store query has ended with [TypeError], not with the error of
    the store; nothing is loaded.  In a run over [n1, n2] against a store
    that fails at its third query, with [StoreQueryError], the invocation
    ends with [TypeError]. *)
Theorem process_store_failure_is_TypeError :
  (forall (e : Exn) relation network tried disableIndex,
     run (clients (fun _ _ _ _ => inl e)
                  (fun height => inr (exampleChain height))) 1 tt
       (queryNextPossiblyRelatedNetworks relation (Some network) tried
          disableIndex) =
     ([Queried relation (id network) tried (truthy disableIndex) (inl e)],
      tt, Some (inl TypeError))) /\
  (forall W (env : Env W) w options,
     Always env w (process options)
       (fun events _ o =>
          Exists isFailedQuery events ->
          o = Some (inl TypeError) /\ loads events = [])) /\
  run flakyStoreEnv 3 0%nat
    (process (Options.mk [Some n1; Some n2] None)) =
  ([Queried Ancestor "n1" [] false
      (inr {| candidates := []; alreadyTried := [] |});
    Queried Ancestor "n1" [] false
      (inr {| candidates := []; alreadyTried := [] |});
    Queried Descendant "n1" [] false (inl StoreQueryError)],
   3%nat, Some (inl TypeError)).
Proof.
  split; [|split].
  - intros e relation network tried disableIndex. reflexivity.
  - intros W env w options.
    eapply Always_weaken;
      [apply Always_and; [apply process_shape | apply process_log]|].
    intros events w' o [Hshape Hlog] Hex.
    split; [exact (ProcessLog_failedQuery Hshape Hex)|].
    destruct Hlog as [[Hs _]|(searches & cross & answer & -> & _ & Ha & _)].
    + apply isSearch_loads. exact Hs.
    + exfalso. apply Exists_app in Hex. destruct Hex as [Hex|Hex].
      * apply Exists_exists in Hex. destruct Hex as (x & Hin & Hbad).
        rewrite Forall_forall in Ha. specialize (Ha x Hin).
        destruct x as [? ? ? ? [?|?]| |]; cbn in *; contradiction.
      * inversion Hex as [? ? Hbad|? ? Hnil]; subst;
          [destruct Hbad | inversion Hnil].
  - vm_compute. reflexivity.
Qed.

Lemma present_repeat_None k : present (repeat None k) = [].
Proof. induction k as [|k IH]; [reflexivity | exact IH]. Qed.

(** C2, where the code departs from it.  For a batch of one or more
    entries that are all absent, [process] passes its emptiness test (the
    array is not empty), gets no network from [collectNetworks], and calls
    [findRelation] on [networks[0]], which is [undefined]: the invocation
    ends with a [TypeError], in any environment, before any request.
    Only for the empty array does it return at once, with nothing
    exchanged. *)
Theorem process_all_absent_is_TypeError
  {W : Type} (env : Env W) (w : W) (k : nat) (disableIndex : option bool)
  (fuel : nat) :
  run env fuel w (process (Options.mk (repeat None (S k)) disableIndex)) =
  ([], w, Some (inl TypeError)) /\
  run env fuel w (process (Options.mk [] disableIndex)) =
  ([], w, Some (inr None)).
Proof.
  split; [|rewrite run_unfold; reflexivity].
  unfold process. cbn [Options.networks Options.disableIndex].
  replace (Z.of_nat (List.length (repeat (@None Network) (S k))) =? 0)
    with false
    by (symmetry; apply Z.eqb_neq; cbn [repeat List.length]; lia).
  cbv zeta. rewrite collectNetworks_networks.
  cbn [Options.networks]. unfold sortedBatch.
  rewrite present_repeat_None. cbn [sortByHeight map nth_error].
  rewrite run_unfold. reflexivity.
Qed.

(* ===================================================================== *)
(** * Self-edges *)
(* ===================================================================== *)

Section SelfEdges.
Context {W : Type} (env : Env W).

Lemma fromEnv_log {X} w (request : ProcessE X) w' answer :
  @env _ w request = (w', answer) -> fromEnv env (log request answer).
Proof.
  intros H. destruct request; cbn; exists w; rewrite H; reflexivity.
Qed.

(** Every answer in a log is an answer of the environment. *)
Lemma Always_fromEnv {R} w (t : itree ProcessE R) :
  Always env w t (fun events _ _ => Forall (fromEnv env) events).
Proof.
  intros fuel. revert w t.
  induction fuel as [|fuel IH]; intros w t; rewrite run_unfold;
    destruct (observe t) as [r | t' | X request k]; try constructor.
  - apply IH.
  - destruct (@env _ w request) as [w1 answer] eqn:Henv.
    specialize (IH w1 (k answer)).
    destruct (run env fuel w1 (k answer)) as [[events w2] o].
    constructor; [eapply fromEnv_log; exact Henv | exact IH].
Qed.

Hypothesis Hstore : NoSelfCandidate env.

(** What a search finds is a candidate the store returned for the
    network, so it is another network. *)
Lemma findRelation_found_distinct w relation n disableIndex :
  Always env w (findRelation relation (Some n) disableIndex)
    (fun _ _ o => forall m, o = Some (inr (Some m)) -> id m <> id n).
Proof.
  eapply Always_weaken;
    [apply Always_and; [apply findRelation_shape | apply Always_fromEnv]|].
  intros events w' o [Hshape Henv] m ->.
  apply SearchLog_found in Hshape.
  destruct Hshape as (n' & sent & r & c & Hn & Hin & Hc & ->).
  inversion Hn; subst n'.
  rewrite Forall_forall in Henv. destruct (Henv _ Hin) as [w0 Hanswer].
  apply Hstore in Hanswer. rewrite Forall_forall in Hanswer.
  exact (Hanswer c Hc).
Qed.

Lemma forEachNetwork_noSelfEdge disableIndex batch : forall genealogies w,
  Forall noSelfEdge genealogies ->
  Always env w (forEachNetwork disableIndex batch genealogies)
    (fun _ _ o => forall v, o = Some (inr v) -> Forall noSelfEdge v).
Proof.
  induction batch as [|network rest IH]; intros genealogies w Hacc.
  - apply Always_Ret. intros v Hv. inversion Hv; subst. exact Hacc.
  - cbn [forEachNetwork]. apply Always_then.
    eapply Always_weaken; [apply findRelation_found_distinct|].
    intros ev1 w1 [[e|a]|] Ha; try (intros v Hv; discriminate).
    apply Always_then.
    eapply Always_weaken; [apply findRelation_found_distinct|].
    intros ev2 w2 [[e|d]|] Hd; try (intros v Hv; discriminate).
    apply IH.
    assert (H1 : Forall noSelfEdge
                   match a with
                   | Some a' =>
                       genealogies
                         ++ [ {| ancestor := a'; descendant := network |} ]
                   | None => genealogies
                   end).
    { destruct a as [a'|]; [|exact Hacc].
      apply Forall_app. split; [exact Hacc|].
      constructor; [|constructor]. exact (Ha a' eq_refl). }
    destruct d as [d'|]; [|exact H1].
    apply Forall_app. split; [exact H1|].
    constructor; [|constructor].
    unfold noSelfEdge. cbn. intros Heq. exact (Hd d' eq_refl (eq_sym Heq)).
Qed.

Lemma process_noSelfEdge w options :
  Always env w (process options)
    (fun events _ _ =>
       forall inputs, In inputs (loads events) -> Forall noSelfEdge inputs).
Proof.
  unfold process.
  destruct (Z.of_nat (List.length (Options.networks options)) =? 0).
  - apply Always_Ret. intros inputs [].
  - cbv zeta. apply Always_then.
    eapply Always_weaken; [apply findRelation_search|].
    intros ev1 w1 o1 [Hs1 _].
    assert (Hquiet : forall events inputs,
               Forall isSearch events ->
               In inputs (loads (ev1 ++ events)) -> Forall noSelfEdge inputs).
    { intros events inputs Hs Hin.
      rewrite loads_app, (isSearch_loads Hs1), (isSearch_loads Hs) in Hin.
      destruct Hin. }
    destruct o1 as [[e|a]|];
      try (intros inputs Hin; rewrite (isSearch_loads Hs1) in Hin;
           destruct Hin).
    apply Always_then.
    eapply Always_weaken;
      [apply Always_and;
       [apply forEachNetwork_search
       | apply forEachNetwork_noSelfEdge;
         rewrite collectNetworks_genealogies; apply pairwise_noSelfEdge]|].
    intros ev2 w2 o2 [[Hs2 _] Hclean].
    destruct o2 as [[e|genealogies]|];
      try (intros inputs; apply Hquiet; exact Hs2).
    apply Always_then, Always_yield.
    + intros inputs. rewrite app_nil_r. apply Hquiet. exact Hs2.
    + assert (Hload : forall answer rest inputs,
                 rest = [] ->
                 In inputs
                    (loads (ev1 ++ ev2 ++ Loaded genealogies answer :: rest)) ->
                 Forall noSelfEdge inputs).
      { intros answer rest inputs -> Hin.
        rewrite !loads_app, (isSearch_loads Hs1), (isSearch_loads Hs2) in Hin.
        destruct Hin as [<-|[]]. exact (Hclean genealogies eq_refl). }
      intros w3 [e|results] _; cbn [log].
      * intros inputs. apply Hload. reflexivity.
      * apply Always_Ret. intros inputs. apply Hload. reflexivity.
Qed.

End SelfEdges.

Lemma exampleQuery_candidates known tried c :
  In c (candidates (exampleQuery known tried)) -> In c known.
Proof.
  unfold exampleQuery.
  destruct (filter (fun c => negb (mem (network_id c) tried)) known)
    as [|c' rest] eqn:E; cbn [candidates]; [contradiction|].
  intros [<-|[]].
  assert (Hc : In c' (filter (fun c => negb (mem (network_id c) tried)) known))
    by (rewrite E; left; reflexivity).
  apply filter_In in Hc. tauto.
Qed.

Lemma ancestorsEnv_noSelfCandidate known chain :
  NoSelfCandidate (ancestorsEnv known chain).
Proof.
  intros w relation networkId tried disableIndex r Hanswer.
  cbn in Hanswer. inversion Hanswer; subst r. clear Hanswer.
  destruct relation; [|constructor].
  apply Forall_forall. intros c Hc.
  apply exampleQuery_candidates, filter_In in Hc.
  destruct Hc as [_ Hc]. apply negb_true_iff, String.eqb_neq in Hc. exact Hc.
Qed.

(** C9, as the code has it.  Every pairwise edge of [collectNetworks] has
    [ancestor.id <> descendant.id], for every batch.  A cross-batch edge
    joins the network searched for with the candidate the search found,
    and the code compares no ids there: when the store never lists the
    network asked about among the candidates it returns, every list of
    edges the loop over the batch builds, and every list handed to the
    load, is free of self-edges. *)
Theorem edges_without_self_edges :
  (forall options,
     Forall noSelfEdge (networkGenealogies (collectNetworks options))) /\
  (forall W (env : Env W),
     NoSelfCandidate env ->
     (forall w disableIndex batch genealogies,
        Forall noSelfEdge genealogies ->
        Always env w (forEachNetwork disableIndex batch genealogies)
          (fun _ _ o =>
             forall v, o = Some (inr v) -> Forall noSelfEdge v)) /\
     (forall w options,
        Always env w (process options)
          (fun events _ _ =>
             forall inputs,
               In inputs (loads events) -> Forall noSelfEdge inputs))).
Proof.
  split.
  - intros options. rewrite collectNetworks_genealogies.
    apply pairwise_noSelfEdge.
  - intros W env Hstore. split.
    + intros w disableIndex batch genealogies Hacc.
      apply forEachNetwork_noSelfEdge; assumption.
    + intros w options. apply process_noSelfEdge. exact Hstore.
Qed.

Lemma edges_without_self_edges_witness :
  NoSelfCandidate (ancestorsEnv [n1; n2] exampleChain) /\
  Always (ancestorsEnv [n1; n2] exampleChain) tt
    (process (Options.mk [Some n2] None))
    (fun events _ _ =>
       forall inputs, In inputs (loads events) -> Forall noSelfEdge inputs) /\
  loads (fst (fst (run (ancestorsEnv [n1; n2] exampleChain) 6 tt
                     (process (Options.mk [Some n2] None))))) =
  [[ {| ancestor := toIdObject n1; descendant := toIdObject n2 |} ]].
Proof.
  pose proof (@ancestorsEnv_noSelfCandidate [n1; n2] exampleChain) as Hstore.
  refine (conj Hstore (conj _ _)); [|vm_compute; reflexivity].
  exact (proj2 (proj2 edges_without_self_edges unit
                  (ancestorsEnv [n1; n2] exampleChain) Hstore)
           tt (Options.mk [Some n2] None)).
Defined.

(** C9, refuted as stated: the store lists [n2] itself among the possible
    relatives of [n2], the chain confirms its block, and the edges handed
    to the load are two self-edges [n2 -> n2]. *)
Lemma process_self_edge :
  loads (fst (fst (run (exampleEnv [n2] exampleChain) 7 tt
                     (process (Options.mk [Some n2] None))))) =
  [[ {| ancestor := toIdObject n2; descendant := toIdObject n2 |};
     {| ancestor := toIdObject n2; descendant := toIdObject n2 |} ]] /\
  ~ noSelfEdge {| ancestor := toIdObject n2; descendant := toIdObject n2 |}.
Proof.
  split; [vm_compute; reflexivity|].
  intros H. apply H. reflexivity.
Qed.

(* ===================================================================== *)
(** * Three invocations *)
(* ===================================================================== *)

(** Two networks, a store that knows no other: the pairwise edge is all
    that is loaded. *)
Example process_pairwise_only :
  loads (fst (fst (run (exampleEnv [] exampleChain) 6 tt
                     (process (Options.mk [Some n1; Some n2] None))))) =
  [[ {| ancestor := toIdObject n1; descendant := toIdObject n2 |} ]].
Proof. vm_compute. reflexivity. Qed.

(** One network, a store that knows a possible ancestor, a chain that
    confirms it: the edge from the ancestor is loaded. *)
Example process_known_ancestor :
  run (ancestorsEnv [n1] exampleChain) 6 tt
    (process (Options.mk [Some n2] None)) =
  ([Queried Ancestor "n2" [] false
      (inr {| candidates := [n1]; alreadyTried := ["n1"] |});
    Asked 100 (inr (blockWith "0xaa"));
    Queried Ancestor "n2" [] false
      (inr {| candidates := [n1]; alreadyTried := ["n1"] |});
    Asked 100 (inr (blockWith "0xaa"));
    Queried Descendant "n2" [] false
      (inr {| candidates := []; alreadyTried := [] |});
    Loaded [ {| ancestor := toIdObject n1; descendant := toIdObject n2 |} ]
      (inr [ {| id := "n1->n2" |} ])],
   tt, Some (inr (Some [ {| id := "n1->n2" |} ]))).
Proof. vm_compute. reflexivity. Qed.

(** A chain client that fails: the invocation ends with its error at the
    first validation, and nothing is loaded. *)
Example process_chain_failure :
  run (failingChainEnv [n1]) 6 tt (process (Options.mk [Some n2] None)) =
  ([Queried Ancestor "n2" [] false
      (inr {| candidates := [n1]; alreadyTried := ["n1"] |});
    Asked 100 (inl ChainQueryError)],
   tt, Some (inl ChainQueryError)).
Proof. vm_compute. reflexivity. Qed.

(* ===================================================================== *)
(** * Further properties of collectNetworks *)
(* ===================================================================== *)

Lemma pairwise_step a b rest :
  pairwise (a :: b :: rest) =
  if same_id a b
  then pairwise (b :: rest)
  else {| ancestor := a; descendant := b |} :: pairwise (b :: rest).
Proof.
  rewrite !pairwise_adjacent. cbn [adjacent filter].
  unfold distinct at 1. cbn [fst snd].
  destruct (same_id a b); reflexivity.
Qed.

(** The first edge starts at the first reference: the references before
    it are the first one again. *)
Lemma pairwise_first l : forall e edges,
  pairwise l = e :: edges -> hd_error l = Some (ancestor e).
Proof.
  induction l as [|a l IH]; intros e edges H; [discriminate|].
  destruct l as [|b l]; [discriminate|].
  rewrite pairwise_step in H. destruct (same_id a b) eqn:E.
  - apply same_id_true, IdObject_eq in E. subst b. exact (IH _ _ H).
  - inversion H; subst. reflexivity.
Qed.

(** A walk without an edge has seen one reference only. *)
Lemma pairwise_none b l : pairwise (b :: l) = [] -> Forall (eq b) l.
Proof.
  revert b. induction l as [|c l IH]; intros b H; [constructor|].
  rewrite pairwise_step in H. destruct (same_id b c) eqn:E; [|discriminate].
  apply same_id_true, IdObject_eq in E. subst c.
  constructor; [reflexivity | exact (IH b H)].
Qed.

Lemma repeated_last (b : IdObject) l :
  Forall (eq b) l -> exists l', b :: l = l' ++ [b].
Proof.
  induction 1 as [|c l <- _ [l' IH]].
  - exists []. reflexivity.
  - exists (b :: l'). cbn [app]. rewrite <- IH. reflexivity.
Qed.

Lemma pairwise_last l : forall edges e,
  pairwise l = edges ++ [e] -> exists l', l = l' ++ [descendant e].
Proof.
  induction l as [|a l IH]; intros edges e H;
    [destruct edges; discriminate|].
  destruct l as [|b l]; [destruct edges; discriminate|].
  rewrite pairwise_step in H. destruct (same_id a b) eqn:E.
  - destruct (IH _ _ H) as [l' Hl']. exists (a :: l').
    cbn [app]. rewrite <- Hl'. reflexivity.
  - destruct edges as [|e0 edges].
    + inversion H as [[He Hrest]]. cbn [descendant].
      change (pairwise (b :: l) = []) in Hrest.
      destruct (repeated_last (@pairwise_none b l Hrest)) as [l' Hl'].
      exists (a :: l'). cbn [app]. rewrite <- Hl'. reflexivity.
    + inversion H as [[He0 Hrest]].
      destruct (IH _ _ Hrest) as [l' Hl']. exists (a :: l').
      cbn [app]. rewrite <- Hl'. reflexivity.
Qed.

Lemma pairwise_chained l : chained (pairwise l).
Proof.
  induction l as [|a l IH]; [exact I|].
  destruct l as [|b l]; [exact I|].
  rewrite pairwise_step. destruct (same_id a b); [exact IH|].
  destruct (pairwise (b :: l)) as [|e edges] eqn:E; [exact I|].
  cbn [chained descendant]. split; [|exact IH].
  apply pairwise_first in E. cbn in E. inversion E. reflexivity.
Qed.

(** X1. The pairwise edges of [collectNetworks] form one chain over the
    sorted batch: each edge ends at the network the next edge starts from,
    the first edge starts at the earliest network and the last edge ends
    at the latest one. *)
Theorem collectNetworks_edges_form_a_chain (options : Options.t) :
  let collected := collectNetworks options in
  chained (networkGenealogies collected) /\
  (forall e edges,
     networkGenealogies collected = e :: edges ->
     hd_error (networks collected) = Some (ancestor e)) /\
  (forall edges e,
     networkGenealogies collected = edges ++ [e] ->
     exists before, networks collected = before ++ [descendant e]).
Proof.
  cbv zeta. rewrite collectNetworks_genealogies, collectNetworks_networks.
  split; [apply pairwise_chained|]. split.
  - apply pairwise_first.
  - apply pairwise_last.
Qed.

Lemma present_Permutation b1 b2 :
  Permutation b1 b2 -> Permutation (present b1) (present b2).
Proof.
  induction 1 as [|x l l' _ IH|x y l|l l' l'' _ IH1 _ IH2].
  - constructor.
  - destruct x; cbn; [constructor|]; exact IH.
  - destruct x, y; cbn; try reflexivity. apply perm_swap.
  - etransitivity; eassumption.
Qed.

(** Two ascending arrangements of the same entries are the same list when
    height tells the entries apart. *)
Lemma sorted_arrangement_unique l1 : forall l2,
  StronglySorted byHeight l1 -> StronglySorted byHeight l2 ->
  Permutation l1 l2 -> heightsTellApart l1 -> l1 = l2.
Proof.
  induction l1 as [|a l1 IH]; intros l2 Hs1 Hs2 Hperm Hapart.
  - apply Permutation_nil in Hperm. symmetry. exact Hperm.
  - destruct l2 as [|b l2];
      [apply Permutation_sym, Permutation_nil in Hperm; discriminate|].
    assert (Hb : In b (a :: l1))
      by (apply (Permutation_in _ (Permutation_sym Hperm)); left; reflexivity).
    assert (Ha : In a (b :: l2))
      by (apply (Permutation_in _ Hperm); left; reflexivity).
    inversion Hs1 as [|? ? Hs1' Hall1]; subst.
    inversion Hs2 as [|? ? Hs2' Hall2]; subst.
    rewrite Forall_forall in Hall1, Hall2.
    assert (Heq : a = b).
    { apply Hapart; [left; reflexivity | exact Hb|].
      assert (Hab : height (historicBlock a) <= height (historicBlock b))
        by (destruct Hb as [<-|Hb]; [lia | exact (Hall1 _ Hb)]).
      assert (Hba : height (historicBlock b) <= height (historicBlock a))
        by (destruct Ha as [<-|Ha]; [lia | exact (Hall2 _ Ha)]).
      lia. }
    subst b. f_equal.
    apply IH; [exact Hs1' | exact Hs2'
              | exact (Permutation_cons_inv Hperm)|].
    intros x y Hx Hy. apply Hapart; right; assumption.
Qed.

(** X2. When no two different present entries have the same height, the
    result of [collectNetworks] does not depend on the order of the batch
    (nor on where its absent entries are, nor on the flag): two batches
    that are permutations of each other give the same networks and the
    same edges. *)
Theorem collectNetworks_order_independent
  (batch1 batch2 : list (option Network)) (flag1 flag2 : option bool) :
  Permutation batch1 batch2 ->
  heightsTellApart (present batch1) ->
  collectNetworks (Options.mk batch1 flag1) =
  collectNetworks (Options.mk batch2 flag2).
Proof.
  intros Hperm Hapart.
  assert (Hsorted : sortedBatch batch1 = sortedBatch batch2).
  { unfold sortedBatch. apply sorted_arrangement_unique.
    - apply sortByHeight_sorted.
    - apply sortByHeight_sorted.
    - rewrite <- !sortByHeight_perm. apply present_Permutation, Hperm.
    - intros x y Hx Hy.
      apply Hapart;
        eapply Permutation_in;
        try (apply Permutation_sym, sortByHeight_perm); assumption. }
  unfold collectNetworks. cbn [Options.networks]. rewrite Hsorted.
  reflexivity.
Qed.

Lemma collectNetworks_order_independent_witness :
  Permutation [Some n2; None; Some n1] [Some n1; Some n2; None] /\
  heightsTellApart (present [Some n2; None; Some n1]) /\
  collectNetworks (Options.mk [Some n2; None; Some n1] None) =
  collectNetworks (Options.mk [Some n1; Some n2; None] (Some true)).
Proof.
  assert (Hperm : Permutation [Some n2; None; Some n1]
                    [Some n1; Some n2; None]).
  { apply Permutation_sym.
    apply (@Permutation_cons_app _ [Some n2; None] [Some n2; None] []
             (Some n1)).
    rewrite app_nil_r. apply Permutation_refl. }
  assert (Hapart : heightsTellApart (present [Some n2; None; Some n1])).
  { intros x y [<-|[<-|[]]] [<-|[<-|[]]]; cbn; intros H;
      try reflexivity; discriminate. }
  refine (conj Hperm (conj Hapart _)).
  exact (collectNetworks_order_independent None (Some true) Hperm Hapart).
Defined.

Lemma adjacent_length {A} (l : list A) :
  List.length (adjacent l) = (List.length l - 1)%nat.
Proof.
  induction l as [|a [|b l] IH]; try reflexivity.
  cbn [adjacent List.length] in *. rewrite IH. lia.
Qed.

Lemma adjacent_In {A} (l : list A) a b :
  In (a, b) (adjacent l) -> In a l /\ In b l.
Proof.
  induction l as [|x [|y l] IH]; try contradiction.
  cbn [adjacent]. intros [H|H].
  - inversion H; subst. split; [left | right; left]; reflexivity.
  - destruct (IH H) as [Ha Hb]. split; right; assumption.
Qed.

Lemma adjacent_NoDup {A} (l : list A) a b :
  NoDup l -> In (a, b) (adjacent l) -> a <> b.
Proof.
  induction l as [|x [|y l] IH]; try contradiction.
  intros Hnd. cbn [adjacent]. intros [H|H].
  - inversion H; subst. inversion Hnd as [|? ? Hnot _]; subst.
    intros ->. apply Hnot. left. reflexivity.
  - inversion Hnd; subst. apply IH; assumption.
Qed.

Lemma filter_all {A} (p : A -> bool) l :
  (forall x, In x l -> p x = true) -> filter p l = l.
Proof.
  induction l as [|a l IH]; intros H; [reflexivity|].
  cbn [filter]. rewrite (H a (or_introl eq_refl)), IH; [reflexivity|].
  intros x Hx. apply H. right. exact Hx.
Qed.

(** X3. [collectNetworks] keeps every present entry, duplicates included:
    it returns as many networks as the batch has present entries.  It
    emits at most one edge fewer than networks, and exactly one fewer when
    the ids of the present entries are pairwise different. *)
Theorem collectNetworks_counts (options : Options.t) :
  let collected := collectNetworks options in
  let batch := present (Options.networks options) in
  List.length (networks collected) = List.length batch /\
  (List.length (networkGenealogies collected)
   <= List.length (networks collected) - 1)%nat /\
  (NoDup (map network_id batch) ->
   List.length (networkGenealogies collected)
   = (List.length (networks collected) - 1)%nat).
Proof.
  cbv zeta. rewrite collectNetworks_genealogies, collectNetworks_networks.
  split; [|split].
  - rewrite length_map. unfold sortedBatch.
    symmetry. apply Permutation_length, sortByHeight_perm.
  - rewrite pairwise_adjacent, length_map, <- adjacent_length.
    apply filter_length_le.
  - intros Hnd. rewrite pairwise_adjacent, length_map, <- adjacent_length.
    f_equal. apply filter_all. intros [a b] Hab.
    unfold distinct. cbn [fst snd]. apply negb_true_iff, same_id_false.
    assert (Hrefs : NoDup (map id (map toIdObject
                             (sortedBatch (Options.networks options))))).
    { rewrite map_map. cbn [toIdObject id].
      eapply Permutation_NoDup; [|exact Hnd].
      apply Permutation_map. unfold sortedBatch. apply sortByHeight_perm. }
    apply NoDup_map_inv in Hrefs.
    intros Hid. apply IdObject_eq in Hid.
    exact (adjacent_NoDup Hrefs Hab Hid).
Qed.

Lemma collectNetworks_counts_witness :
  NoDup (map network_id (present [Some n2; None; Some n1])) /\
  List.length
    (networkGenealogies
       (collectNetworks (Options.mk [Some n2; None; Some n1] None))) =
  (List.length
     (networks (collectNetworks (Options.mk [Some n2; None; Some n1] None)))
   - 1)%nat.
Proof.
  assert (Hnd : NoDup (map network_id (present [Some n2; None; Some n1]))).
  { cbn. constructor; [intros [H|[]]; discriminate|].
    constructor; [intros []|constructor]. }
  refine (conj Hnd _).
  exact (proj2 (proj2 (collectNetworks_counts
                         (Options.mk [Some n2; None; Some n1] None))) Hnd).
Defined.

(** X4. The sort of [collectNetworks] keeps ties in place: the present
    entries of one height come out in the order they have in the batch. *)
Theorem collectNetworks_ties_keep_order (options : Options.t) (h : Z) :
  networks (collectNetworks options) =
    map toIdObject (sortedBatch (Options.networks options)) /\
  filter (fun n => height (historicBlock n) =? h)
    (sortedBatch (Options.networks options)) =
  filter (fun n => height (historicBlock n) =? h)
    (present (Options.networks options)).
Proof.
  split; [apply collectNetworks_networks|].
  unfold sortedBatch. apply sortByHeight_stable.
Qed.

(** X5. Every pairwise edge of [collectNetworks] joins two of the networks
    it returns. *)
Theorem collectNetworks_edges_within_batch (options : Options.t) :
  let collected := collectNetworks options in
  Forall (fun e =>
            In (ancestor e) (networks collected) /\
            In (descendant e) (networks collected))
         (networkGenealogies collected).
Proof.
  cbv zeta. rewrite collectNetworks_genealogies, collectNetworks_networks.
  rewrite pairwise_adjacent. apply Forall_forall. intros e He.
  apply in_map_iff in He. destruct He as ([a b] & <- & Hab).
  apply filter_In in Hab. destruct Hab as [Hab _].
  apply adjacent_In in Hab. exact Hab.
Qed.

(* ===================================================================== *)
(** * Further properties of findMatchingCandidateOnChain *)
(* ===================================================================== *)

Lemma ValidationLog_in_order cs events o :
  ValidationLog cs events o ->
  (List.length events <= List.length cs)%nat /\
  Forall2 askedFor (firstn (List.length events) cs) events.
Proof.
  induction 1 as [|c rest|c rest e|c rest response Hc
                 |c rest response events o Hc Hrest [IHlen IHall]];
    cbn [List.length firstn].
  - split; [lia | constructor].
  - split; [lia | constructor].
  - split; [lia|]. repeat constructor. eexists. reflexivity.
  - split; [lia|]. repeat constructor. eexists. reflexivity.
  - split; [lia|]. constructor; [eexists; reflexivity | exact IHall].
Qed.

Lemma ValidationLog_first_confirmed cs events m :
  ValidationLog cs events (Some (inr (Some m))) ->
  exists before c after response refusals,
    cs = before ++ c :: after /\
    m = toIdObject c /\
    confirms response c = true /\
    events =
      refusals ++ [Asked (height (historicBlock c)) (inr response)] /\
    Forall2 refusedBy before refusals.
Proof.
  remember (Some (inr (Some m))) as o eqn:Ho.
  induction 1 as [| | |c rest response Hc
                 |c rest response events o Hc Hrest IH]; try discriminate.
  - inversion Ho; subst.
    exists [], c, rest, response, []. repeat split; auto.
  - destruct (IH Ho)
      as (before & c' & after & response' & refusals
          & -> & -> & Hc' & -> & Hall).
    exists (c :: before), c', after, response',
      (Asked (height (historicBlock c)) (inr response) :: refusals).
    repeat split; auto.
    constructor; [|exact Hall]. exists response. split; [reflexivity | exact Hc].
Qed.

Lemma ValidationLog_all_refused cs events :
  ValidationLog cs events (Some (inr None)) -> Forall2 refusedBy cs events.
Proof.
  remember (Some (inr None)) as o eqn:Ho.
  induction 1 as [| | | |c rest response events o Hc Hrest IH];
    try discriminate.
  - constructor.
  - constructor; [|exact (IH Ho)].
    exists response. split; [reflexivity | exact Hc].
Qed.

(** X6. In any environment, also one whose answers change from one request
    to the next, [findMatchingCandidateOnChain] exchanges chain requests
    only: one per candidate, in list order, for a prefix of the list.  A
    candidate it returns is the first one whose own request was answered
    with its recorded hash, every candidate before it having been
    refused, and none after it asked about; it returns none only when
    every candidate of the list was asked about and refused. *)
Theorem findMatchingCandidateOnChain_in_any_environment
  {W : Type} (env : Env W) (w : W) (cs : list Network) :
  Always env w (findMatchingCandidateOnChain cs)
    (fun events _ o =>
       (List.length events <= List.length cs)%nat /\
       Forall2 askedFor (firstn (List.length events) cs) events /\
       (forall m,
          o = Some (inr (Some m)) ->
          exists before c after response refusals,
            cs = before ++ c :: after /\
            m = toIdObject c /\
            confirms response c = true /\
            events =
              refusals ++ [Asked (height (historicBlock c)) (inr response)] /\
            Forall2 refusedBy before refusals) /\
       (o = Some (inr None) -> Forall2 refusedBy cs events)).
Proof.
  eapply Always_weaken; [apply findMatching_shape|].
  intros events w' o Hshape.
  destruct (ValidationLog_in_order Hshape) as [Hlen Hall].
  repeat split; try assumption.
  - intros m ->. apply ValidationLog_first_confirmed. exact Hshape.
  - intros ->. apply ValidationLog_all_refused. exact Hshape.
Qed.

(* ===================================================================== *)
(** * Further properties of findRelation *)
(* ===================================================================== *)

Lemma ValidationLog_searchesFor relation networkId flag cs events o :
  ValidationLog cs events o ->
  forall batch tail,
    (forall c, In c cs -> In c batch) ->
    searchesFor relation networkId flag batch tail ->
    searchesFor relation networkId flag batch (events ++ tail).
Proof.
  induction 1 as [|c rest|c rest e|c rest response Hc
                 |c rest response events o Hc Hrest IH];
    intros batch tail Hsub Htail; cbn [app searchesFor]; auto.
  - split; [|exact Htail]. exists c. split; [apply Hsub; left|]; reflexivity.
  - split; [|exact Htail]. exists c. split; [apply Hsub; left|]; reflexivity.
  - split; [exists c; split; [apply Hsub; left|]; reflexivity|].
    apply IH; [|exact Htail]. intros x Hx. apply Hsub. right. exact Hx.
Qed.

Lemma SearchLog_searchesFor relation n flag tried events o :
  SearchLog relation (Some n) flag tried events o ->
  forall batch, searchesFor relation (id n) flag batch events.
Proof.
  induction 1 as [ | |tried n' e Hn|tried n' r events o Hn Hval Hne
                 |tried n' r events Hn Hval Hcs
                 |tried n' r events events' o Hn Hval Hcs Hnext IH];
    intros batch; try exact I;
    inversion Hn; subst n'; cbn [searchesFor]; repeat split.
  - rewrite <- (app_nil_r events).
    eapply ValidationLog_searchesFor; [exact Hval | auto | exact I].
  - rewrite <- (app_nil_r events).
    eapply ValidationLog_searchesFor; [exact Hval | auto | exact I].
  - eapply ValidationLog_searchesFor; [exact Hval | auto | apply IH].
Qed.

(** X7. In any environment, every store query of a search by
    [findRelation] is for the relation, the network and the flag the
    search was called with; the search loads nothing; and every chain
    request it makes is for the height of a candidate of the store answer
    just before it. *)
Theorem findRelation_asks_about_its_network
  {W : Type} (env : Env W) (w : W) (relation : Relation) (n : IdObject)
  (disableIndex : option bool) :
  Always env w (findRelation relation (Some n) disableIndex)
    (fun events _ _ =>
       searchesFor relation (id n) (truthy disableIndex) [] events).
Proof.
  eapply Always_weaken; [apply findRelation_shape|].
  intros events w' o Hshape. exact (SearchLog_searchesFor Hshape []).
Qed.

Lemma SearchLog_confirmed relation network flag tried events m :
  SearchLog relation network flag tried events (Some (inr (Some m))) ->
  exists n before sent r refusals c response,
    network = Some n /\
    events =
      before ++
      Queried relation (id n) sent flag (inr r)
        :: refusals ++ [Asked (height (historicBlock c)) (inr response)] /\
    In c (candidates r) /\
    m = toIdObject c /\
    confirms response c = true /\
    exchanges refusals = [].
Proof.
  remember (Some (inr (Some m))) as o eqn:Ho.
  induction 1 as [ | | |tried n r events o Hn Hval Hne
                 |tried n r events Hn Hval Hcs
                 |tried n r events events' o Hn Hval Hcs Hnext IH];
    try discriminate; subst.
  - pose proof (ValidationLog_asks Hval) as (_ & Hquiet & _).
    apply ValidationLog_first_confirmed in Hval.
    destruct Hval as (cs1 & c & cs2 & response & refusals
                      & Hcs & -> & Hc & -> & _).
    exists n, [], tried, r, refusals, c, response.
    repeat split; auto.
    + rewrite Hcs. apply in_or_app. right. left. reflexivity.
    + rewrite exchanges_app in Hquiet.
      apply app_eq_nil in Hquiet. tauto.
  - destruct (IH eq_refl)
      as (n' & before & sent & r' & refusals & c & response
          & Hn' & -> & Hin & Hm & Hc & Hquiet).
    exists n', (Queried relation (id n) tried flag (inr r) :: events ++ before),
      sent, r', refusals, c, response.
    repeat split; auto.
    cbn [app]. rewrite <- app_assoc. reflexivity.
Qed.

(** X8. In any environment, a network returned by [findRelation] is a
    candidate of the last store answer of the search, and the last entry
    of the log is the chain request for its height, answered with its
    recorded hash; between that store answer and that request the search
    made chain requests only. *)
Theorem findRelation_returns_confirmed_candidate
  {W : Type} (env : Env W) (w : W) (relation : Relation)
  (network : option IdObject) (disableIndex : option bool) :
  Always env w (findRelation relation network disableIndex)
    (fun events _ o =>
       forall m,
         o = Some (inr (Some m)) ->
         exists n before sent r refusals c response,
           network = Some n /\
           events =
             before ++
             Queried relation (id n) sent (truthy disableIndex) (inr r)
               :: refusals
                  ++ [Asked (height (historicBlock c)) (inr response)] /\
           In c (candidates r) /\
           m = toIdObject c /\
           confirms response c = true /\
           exchanges refusals = []).
Proof.
  eapply Always_weaken; [apply findRelation_shape|].
  intros events w' o Hshape m ->. exact (SearchLog_confirmed Hshape).
Qed.

Lemma refused_examined cs events :
  Forall2 refusedBy cs events ->
  forall tail, examined [] tail -> examined cs (events ++ tail).
Proof.
  induction 1 as [|c e cs events (response & -> & Hc) _ IH];
    intros tail Htail; [exact Htail|].
  cbn [app examined]. repeat split; auto.
Qed.

Lemma SearchLog_exhausted relation network flag tried events :
  SearchLog relation network flag tried events (Some (inr None)) ->
  examined [] events /\
  exists n before sent r,
    network = Some n /\
    events = before ++ [Queried relation (id n) sent flag (inr r)] /\
    candidates r = [].
Proof.
  remember (Some (inr None)) as o eqn:Ho.
  induction 1 as [ | | |tried n r events o Hn Hval Hne
                 |tried n r events Hn Hval Hcs
                 |tried n r events events' o Hn Hval Hcs Hnext IH];
    try discriminate; subst.
  - contradiction.
  - rewrite Hcs in Hval. destruct (ValidationLog_nil Hval) as [-> _].
    split.
    + cbn [examined]. rewrite Hcs. auto.
    + exists n, [], tried, r. auto.
  - destruct (IH eq_refl) as (Hex & n' & before & sent & r' & Hn' & -> & Hr').
    split.
    + cbn [examined]. split; [reflexivity|].
      apply refused_examined; [|exact Hex].
      apply ValidationLog_all_refused. exact Hval.
    + exists n',
        (Queried relation (id n) tried flag (inr r) :: events ++ before),
        sent, r'.
      repeat split; auto. cbn [app]. rewrite <- app_assoc. reflexivity.
Qed.

(** X9. In any environment, [findRelation] returns none only at the end of
    a log in which every store query was answered, every candidate of
    every answer was asked about on the chain, in order, and refused, and
    the last entry is a store answer with an empty batch. *)
Theorem findRelation_none_after_all_refused
  {W : Type} (env : Env W) (w : W) (relation : Relation)
  (network : option IdObject) (disableIndex : option bool) :
  Always env w (findRelation relation network disableIndex)
    (fun events _ o =>
       o = Some (inr None) ->
       examined [] events /\
       exists n before sent r,
         network = Some n /\
         events =
           before ++
           [Queried relation (id n) sent (truthy disableIndex) (inr r)] /\
         candidates r = []).
Proof.
  eapply Always_weaken; [apply findRelation_shape|].
  intros events w' o Hshape ->. exact (SearchLog_exhausted Hshape).
Qed.

Section EndlessSearch.
Context {W : Type} (env : Env W).
Hypothesis Hoffers : OffersAlways env.
Hypothesis Hrefuses : RefusesAll env.

Lemma ValidationLog_running cs events o :
  ValidationLog cs events o ->
  Forall (fromEnv env) events ->
  o = None \/ o = Some (inr None).
Proof.
  induction 1 as [|c rest|c rest e|c rest response Hc
                 |c rest response events o Hc Hrest IH]; intros Henv; auto.
  - exfalso. inversion Henv as [|? ? Hfrom _]; subst.
    cbn in Hfrom. destruct Hfrom as [w0 Hanswer].
    destruct (Hrefuses w0 (height (historicBlock c)))
      as (response & Hr & _).
    rewrite Hr in Hanswer. discriminate.
  - exfalso. inversion Henv as [|? ? Hfrom _]; subst.
    cbn in Hfrom. destruct Hfrom as [w0 Hanswer].
    destruct (Hrefuses w0 (height (historicBlock c)))
      as (response' & Hr & Hno).
    rewrite Hr in Hanswer. inversion Hanswer; subst.
    rewrite Hno in Hc. discriminate.
  - inversion Henv; subst. auto.
Qed.

Lemma SearchLog_running relation n flag tried events o :
  SearchLog relation (Some n) flag tried events o ->
  Forall (fromEnv env) events -> o = None.
Proof.
  induction 1 as [ |tried Hn|tried n' e Hn|tried n' r events o Hn Hval Hne
                 |tried n' r events Hn Hval Hcs
                 |tried n' r events events' o Hn Hval Hcs Hnext IH];
    intros Henv.
  - reflexivity.
  - discriminate.
  - exfalso. inversion Henv as [|? ? Hfrom _]; subst.
    cbn in Hfrom. destruct Hfrom as [w0 Hanswer].
    destruct (Hoffers w0 relation (id n') tried flag) as (r & Hr & _).
    rewrite Hr in Hanswer. discriminate.
  - inversion Henv as [|? ? _ Hrest]; subst.
    destruct (ValidationLog_running Hval Hrest) as [->| ->];
      [reflexivity | contradiction].
  - exfalso. inversion Henv as [|? ? Hfrom _]; subst.
    cbn in Hfrom. destruct Hfrom as [w0 Hanswer].
    destruct (Hoffers w0 relation (id n') tried flag) as (r' & Hr & Hsome).
    rewrite Hr in Hanswer. inversion Hanswer; subst. contradiction.
  - inversion Henv as [|? ? _ Hrest]; subst.
    apply Forall_app in Hrest. apply IH. tauto.
Qed.

End EndlessSearch.

(** X10. The loop of [findRelation] has no bound of its own.  Against a
    store that offers a candidate at every query, whatever the exclusion
    list it is sent, and a chain that answers every request without
    confirming, the search never returns and never throws: it is still
    running after any number of steps. *)
Theorem findRelation_runs_forever
  {W : Type} (env : Env W) (w : W) (relation : Relation) (n : IdObject)
  (disableIndex : option bool) :
  OffersAlways env -> RefusesAll env ->
  Always env w (findRelation relation (Some n) disableIndex)
    (fun _ _ o => o = None).
Proof.
  intros Hoffers Hrefuses.
  eapply Always_weaken;
    [apply Always_and; [apply findRelation_shape | apply Always_fromEnv]|].
  intros events w' o [Hshape Henv].
  exact (SearchLog_running Hoffers Hrefuses Hshape Henv).
Qed.

Lemma findRelation_runs_forever_witness :
  OffersAlways stubbornEnv /\ RefusesAll stubbornEnv /\
  Always stubbornEnv tt (findRelation Ancestor (Some (toIdObject n2)) None)
    (fun _ _ o => o = None).
Proof.
  assert (Hoffers : OffersAlways stubbornEnv).
  { intros w relation networkId tried disableIndex.
    eexists. split; [reflexivity | discriminate]. }
  assert (Hrefuses : RefusesAll stubbornEnv).
  { intros w h. eexists. split; [reflexivity | reflexivity]. }
  refine (conj Hoffers (conj Hrefuses _)).
  exact (findRelation_runs_forever tt Ancestor (toIdObject n2) None
           Hoffers Hrefuses).
Defined.

(* ===================================================================== *)
(** * Further properties of process *)
(* ===================================================================== *)

Lemma ValidationLog_chain_failure cs events o h e :
  ValidationLog cs events o ->
  In (Asked h (inl e)) events ->
  o = Some (inl e) /\ exists before, events = before ++ [Asked h (inl e)].
Proof.
  induction 1 as [|c rest|c rest e'|c rest response Hc
                 |c rest response events o Hc Hrest IH]; intros Hin;
    try contradiction.
  - destruct Hin as [Heq|[]]. inversion Heq; subst.
    split; [reflexivity | exists []; reflexivity].
  - destruct Hin as [Heq|[]]. discriminate.
  - destruct Hin as [Heq|Hin]; [discriminate|].
    destruct (IH Hin) as [Ho [before ->]].
    split; [exact Ho|].
    exists (Asked (height (historicBlock c)) (inr response) :: before).
    reflexivity.
Qed.

Lemma SearchLog_chain_failure relation network flag tried events o h e :
  SearchLog relation network flag tried events o ->
  In (Asked h (inl e)) events ->
  o = Some (inl e) /\ exists before, events = before ++ [Asked h (inl e)].
Proof.
  induction 1 as [ | |tried n e' Hn|tried n r events o Hn Hval Hne
                 |tried n r events Hn Hval Hcs
                 |tried n r events events' o Hn Hval Hcs Hnext IH];
    intros Hin; try contradiction.
  - destruct Hin as [Heq|[]]. discriminate.
  - destruct Hin as [Heq|Hin]; [discriminate|].
    destruct (@ValidationLog_chain_failure _ _ _ _ _ Hval Hin) as [Ho [before ->]].
    split; [exact Ho|]. eexists (_ :: before). reflexivity.
  - destruct Hin as [Heq|Hin]; [discriminate|].
    destruct (@ValidationLog_chain_failure _ _ _ _ _ Hval Hin) as [Ho _]. discriminate.
  - destruct Hin as [Heq|Hin]; [discriminate|].
    apply in_app_or in Hin. destruct Hin as [Hin|Hin].
    + destruct (@ValidationLog_chain_failure _ _ _ _ _ Hval Hin) as [Ho _].
      discriminate.
    + destruct (IH Hin) as [Ho [before ->]].
      split; [exact Ho|].
      exists (Queried relation (id n) tried flag (inr r)
                :: events ++ before).
      cbn [app]. rewrite <- app_assoc. reflexivity.
Qed.

Lemma BatchLog_chain_failure flag batch genealogies events o h e :
  BatchLog flag batch genealogies events o ->
  In (Asked h (inl e)) events ->
  o = Some (inl e) /\ exists before, events = before ++ [Asked h (inl e)].
Proof.
  induction 1 as [genealogies
                 |network rest genealogies events o H1 Hne
                 |network rest genealogies ev1 a ev2 o H1 H2 Hne
                 |network rest genealogies ev1 a ev2 d ev3 o H1 H2 H3 IH];
    intros Hin.
  - contradiction.
  - destruct (@SearchLog_chain_failure _ _ _ _ _ _ _ _ H1 Hin) as [-> Hlast]. auto.
  - apply in_app_or in Hin. destruct Hin as [Hin|Hin].
    + destruct (@SearchLog_chain_failure _ _ _ _ _ _ _ _ H1 Hin) as [Ho _]. discriminate.
    + destruct (@SearchLog_chain_failure _ _ _ _ _ _ _ _ H2 Hin) as [-> [before ->]].
      split; [reflexivity|]. exists (ev1 ++ before). apply app_assoc.
  - apply in_app_or in Hin. destruct Hin as [Hin|Hin];
      [destruct (@SearchLog_chain_failure _ _ _ _ _ _ _ _ H1 Hin) as [Ho _]; discriminate|].
    apply in_app_or in Hin. destruct Hin as [Hin|Hin];
      [destruct (@SearchLog_chain_failure _ _ _ _ _ _ _ _ H2 Hin) as [Ho _]; discriminate|].
    destruct (IH Hin) as [Ho [before ->]]. split; [exact Ho|].
    exists (ev1 ++ ev2 ++ before). rewrite <- !app_assoc. reflexivity.
Qed.

Lemma ProcessLog_chain_failure options events o h e :
  ProcessLog options events o ->
  In (Asked h (inl e)) events ->
  o = Some (inl e) /\ exists before, events = before ++ [Asked h (inl e)].
Proof.
  destruct 1 as [Hempty
                |events o Hne H1 Hstop
                |lookup found events o Hne H1 H2 Hstop
                |lookup found searches genealogies Hne H1 H2
                |lookup found searches genealogies answer Hne H1 H2];
    intros Hin.
  - contradiction.
  - destruct (@SearchLog_chain_failure _ _ _ _ _ _ _ _ H1 Hin) as [-> Hlast]. auto.
  - apply in_app_or in Hin. destruct Hin as [Hin|Hin].
    + destruct (@SearchLog_chain_failure _ _ _ _ _ _ _ _ H1 Hin) as [Ho _]. discriminate.
    + destruct (@BatchLog_chain_failure _ _ _ _ _ _ _ H2 Hin) as [-> [before ->]].
      split; [reflexivity|]. exists (lookup ++ before). apply app_assoc.
  - apply in_app_or in Hin. destruct Hin as [Hin|Hin].
    + destruct (@SearchLog_chain_failure _ _ _ _ _ _ _ _ H1 Hin) as [Ho _]. discriminate.
    + destruct (@BatchLog_chain_failure _ _ _ _ _ _ _ H2 Hin) as [Ho _]. discriminate.
  - apply in_app_or in Hin. destruct Hin as [Hin|Hin];
      [destruct (@SearchLog_chain_failure _ _ _ _ _ _ _ _ H1 Hin) as [Ho _]; discriminate|].
    apply in_app_or in Hin. destruct Hin as [Hin|Hin];
      [destruct (@BatchLog_chain_failure _ _ _ _ _ _ _ H2 Hin) as [Ho _]; discriminate|].
    destruct Hin as [Heq|[]]. discriminate.
Qed.

Lemma ends_with_request_no_load options events o before h answer :
  NoLoadYet events o \/ LoadedOnce options events o ->
  events = before ++ [Asked h answer] ->
  loads events = [].
Proof.
  intros [[Hs _]|(searches & cross & loaded & Heq & _)] Hev.
  - apply isSearch_loads. exact Hs.
  - exfalso. rewrite Hev in Heq.
    apply app_inj_tail in Heq. destruct Heq as [_ Heq]. discriminate.
Qed.

(** X11. A failure of the chain client reaches the caller of [process]
    unchanged.  In every invocation and environment, a log that holds a
    failed chain request ends with that request, the outcome of the
    invocation is the exception the request failed with, and nothing is
    loaded. *)
Theorem process_chain_failure_propagates
  {W : Type} (env : Env W) (w : W) (options : Options.t) :
  Always env w (process options)
    (fun events _ o =>
       forall h e,
         In (Asked h (inl e)) events ->
         o = Some (inl e) /\
         (exists before, events = before ++ [Asked h (inl e)]) /\
         loads events = []).
Proof.
  eapply Always_weaken;
    [apply Always_and; [apply process_shape | apply process_log]|].
  intros events w' o [Hshape Hlog] h e Hin.
  destruct (@ProcessLog_chain_failure _ _ _ _ _ Hshape Hin) as [Ho [before Hev]].
  split; [exact Ho|]. split; [exists before; exact Hev|].
  eapply ends_with_request_no_load; eassumption.
Qed.

Lemma collectNetworks_length options :
  List.length (networks (collectNetworks options)) =
  List.length (present (Options.networks options)).
Proof.
  rewrite collectNetworks_networks, length_map. unfold sortedBatch.
  symmetry. apply Permutation_length, sortByHeight_perm.
Qed.

Section ProcessTermination.
Context {W : Type} (env : Env W) (pool : list string).
Hypothesis Hstore : HonorsExclusion env pool.

Lemma findRelation_finishes w relation network disableIndex :
  exists events w' o,
    Runs env w (findRelation relation network disableIndex) events w' o /\
    (List.length (exchanges events) <= List.length pool + 1)%nat.
Proof.
  destruct network as [n|].
  - destruct (@search_terminates W env pool Hstore relation n disableIndex
                _ [] eq_refl w [])
      as (events & w' & o & Hruns & Hcount & _); [intros x []|].
    exists events, w', o. rewrite untried_nil in Hcount. auto.
  - exists [], w, (inl TypeError).
    split; [exists 0%nat; reflexivity | cbn; lia].
Qed.

Lemma forEachNetwork_finishes disableIndex batch : forall genealogies w,
  exists events w' o,
    Runs env w (forEachNetwork disableIndex batch genealogies) events w' o /\
    (List.length (exchanges events)
     <= 2 * List.length batch * (List.length pool + 1))%nat.
Proof.
  induction batch as [|network rest IH]; intros genealogies w.
  - exists [], w, (inr genealogies). split; [apply Runs_ret | cbn; lia].
  - cbn [forEachNetwork List.length].
    destruct (findRelation_finishes w Ancestor (Some network) disableIndex)
      as (ev1 & w1 & [e|a] & H1 & C1).
    { exists ev1, w1, (inl e).
      split; [apply Runs_then_throw; exact H1 | nia]. }
    destruct (findRelation_finishes w1 Descendant (Some network) disableIndex)
      as (ev2 & w2 & [e|d] & H2 & C2).
    { exists (ev1 ++ ev2), w2, (inl e). split.
      - eapply Runs_then; [exact H1 | apply Runs_then_throw; exact H2].
      - rewrite exchanges_app, length_app. nia. }
    destruct (IH (genealogies ++ upEdge a network ++ downEdge network d) w2)
      as (ev3 & w3 & o & H3 & C3).
    exists (ev1 ++ ev2 ++ ev3), w3, o. split.
    + eapply Runs_then; [exact H1|]. cbv zeta.
      eapply Runs_then; [exact H2|]. cbv beta zeta.
      rewrite pushed_edges. exact H3.
    + rewrite !exchanges_app, !length_app. nia.
Qed.

End ProcessTermination.

(** X12. Against a store that honours the exclusion list over a finite
    pool of candidates, every invocation of [process] finishes, whatever
    the batch, the chain and the answer of the load; it makes at most
    [(2 n + 1) (p + 1)] store queries for [n] present entries and a pool
    of [p] ids. *)
Theorem process_finishes
  {W : Type} (env : Env W) (pool : list string) (w : W)
  (options : Options.t) :
  HonorsExclusion env pool ->
  exists events w' o,
    Runs env w (process options) events w' o /\
    (List.length (exchanges events)
     <= (2 * List.length (present (Options.networks options)) + 1)
        * (List.length pool + 1))%nat.
Proof.
  intros Hstore. unfold process.
  destruct (Z.of_nat (List.length (Options.networks options)) =? 0).
  - exists [], w, (inr None). split; [apply Runs_ret | cbn; lia].
  - cbv zeta. rewrite <- collectNetworks_length.
    destruct (findRelation_finishes Hstore w Ancestor
                (nth_error (networks (collectNetworks options)) 0)
                (Options.disableIndex options))
      as (ev1 & w1 & [e|a] & H1 & C1).
    { exists ev1, w1, (inl e).
      split; [apply Runs_then_throw; exact H1 | nia]. }
    destruct (forEachNetwork_finishes Hstore (Options.disableIndex options)
                (networks (collectNetworks options))
                (networkGenealogies (collectNetworks options)) w1)
      as (ev2 & w2 & [e|genealogies] & H2 & C2).
    { exists (ev1 ++ ev2), w2, (inl e). split.
      - eapply Runs_then; [exact H1 | apply Runs_then_throw; exact H2].
      - rewrite exchanges_app, length_app. nia. }
    destruct (@env _ w2 (ResourcesLoad genealogies)) as [w3 answer] eqn:Hload.
    exists (ev1 ++ ev2 ++ [Loaded genealogies answer]), w3,
      (match answer with
       | inl e => inl e
       | inr results => inr (Some results)
       end).
    split.
    + eapply Runs_then; [exact H1|]. eapply Runs_then; [exact H2|].
      destruct answer as [e|results].
      * apply Runs_then_throw. apply (Runs_yield env Hload).
      * eapply Runs_events_eq.
        -- eapply Runs_then; [apply (Runs_yield env Hload) | apply Runs_ret].
        -- reflexivity.
    + rewrite !exchanges_app, !length_app. cbn [exchanges List.length]. nia.
Qed.

Lemma process_finishes_witness :
  HonorsExclusion (exampleEnv [n0_forked; n1] exampleChain) ["n0"; "n1"] /\
  exists events w' o,
    Runs (exampleEnv [n0_forked; n1] exampleChain) tt
      (process (Options.mk [Some n2; None] None)) events w' o /\
    (List.length (exchanges events) <= (2 * 1 + 1) * (2 + 1))%nat.
Proof.
  pose proof (exampleEnv_honors [n0_forked; n1] exampleChain) as Hstore.
  refine (conj Hstore _).
  exact (process_finishes tt (Options.mk [Some n2; None] None) Hstore).
Defined.

Section UnknownNetworks.
Context {W : Type} (env : Env W).
Hypothesis Hnothing : KnowsNothing env.

Lemma findRelation_nothing w relation n disableIndex :
  exists e w',
    Runs env w (findRelation relation (Some n) disableIndex) [e] w'
      (inr None) /\
    isFirstQueryUnanswered e.
Proof.
  destruct (Hnothing w relation (id n) [] (truthy disableIndex))
    as (r & Hr & Hcs).
  destruct (@env _ w (ResourcesGet relation (id n) [] (truthy disableIndex)))
    as [w1 answer] eqn:Henv.
  cbn [snd] in Hr. subst answer.
  assert (Hval : Runs env w1 (findMatchingCandidateOnChain (candidates r))
                   [] w1 (inr None))
    by (rewrite Hcs; exists 0%nat; apply findMatching_nil).
  pose proof (@Runs_searchRound _ env _ _ _ _ _ _ _ _ _ _ Henv Hval)
    as Hround.
  rewrite Hcs in Hround. cbn in Hround.
  exists (Queried relation (id n) [] (truthy disableIndex) (inr r)), w1.
  split; [|cbn; auto].
  unfold findRelation. apply Runs_do_while_stop. exact Hround.
Qed.

Lemma forEachNetwork_nothing disableIndex batch : forall genealogies w,
  exists events w',
    Runs env w (forEachNetwork disableIndex batch genealogies) events w'
      (inr genealogies) /\
    List.length events = (2 * List.length batch)%nat /\
    Forall isFirstQueryUnanswered events.
Proof.
  induction batch as [|network rest IH]; intros genealogies w.
  - exists [], w. split; [apply Runs_ret|]. split; [reflexivity | constructor].
  - destruct (findRelation_nothing w Ancestor network disableIndex)
      as (e1 & w1 & H1 & Q1).
    destruct (findRelation_nothing w1 Descendant network disableIndex)
      as (e2 & w2 & H2 & Q2).
    destruct (IH genealogies w2) as (ev3 & w3 & H3 & L3 & Q3).
    exists ([e1] ++ [e2] ++ ev3), w3. split; [|split].
    + cbn [forEachNetwork].
      eapply Runs_then; [exact H1|]. cbv zeta.
      eapply Runs_then; [exact H2|]. exact H3.
    + cbn [app List.length]. lia.
    + repeat constructor; assumption.
Qed.

End UnknownNetworks.

(** X13. Against a store that knows no candidate, an invocation of
    [process] over a batch with [n >= 1] present entries finishes after
    exactly [2 n + 1] store queries, each the first query of its search,
    and no chain request; it then loads exactly the pairwise edges of the
    batch, and its outcome is the answer of that load. *)
Theorem process_with_unknown_networks
  {W : Type} (env : Env W) (w : W) (options : Options.t) :
  KnowsNothing env ->
  present (Options.networks options) <> [] ->
  exists queries w' w'' answer,
    Runs env w (process options)
      (queries
         ++ [Loaded (networkGenealogies (collectNetworks options)) answer])
      w''
      (match answer with
       | inl e => inl e
       | inr results => inr (Some results)
       end) /\
    @env _ w' (ResourcesLoad (networkGenealogies (collectNetworks options))) =
      (w'', answer) /\
    List.length queries =
      (2 * List.length (present (Options.networks options)) + 1)%nat /\
    Forall isFirstQueryUnanswered queries.
Proof.
  intros Hnothing Hpresent. unfold process.
  assert (Hbatch : networks (collectNetworks options) <> []).
  { intros Heq. apply Hpresent.
    apply length_zero_iff_nil. rewrite <- collectNetworks_length, Heq.
    reflexivity. }
  replace (Z.of_nat (List.length (Options.networks options)) =? 0) with false.
  2:{ symmetry. apply Z.eqb_neq. intros Hlen.
      apply Hpresent. destruct (Options.networks options);
        [reflexivity | cbn in Hlen; lia]. }
  cbv zeta. rewrite <- collectNetworks_length.
  destruct (networks (collectNetworks options)) as [|n rest] eqn:Hnets;
    [contradiction|].
  cbn [nth_error].
  destruct (findRelation_nothing Hnothing w Ancestor n
              (Options.disableIndex options)) as (e1 & w1 & H1 & Q1).
  destruct (forEachNetwork_nothing Hnothing (Options.disableIndex options)
              (n :: rest) (networkGenealogies (collectNetworks options)) w1)
    as (ev2 & w2 & H2 & L2 & Q2).
  destruct (@env _ w2 (ResourcesLoad
                         (networkGenealogies (collectNetworks options))))
    as [w3 answer] eqn:Hload.
  exists ([e1] ++ ev2), w2, w3, answer.
  split; [|split; [exact Hload|split]].
  - rewrite <- app_assoc.
    eapply Runs_then; [exact H1|]. eapply Runs_then; [exact H2|].
    destruct answer as [e|results].
    + apply Runs_then_throw. apply (Runs_yield env Hload).
    + eapply Runs_events_eq.
      * eapply Runs_then; [apply (Runs_yield env Hload) | apply Runs_ret].
      * reflexivity.
  - rewrite length_app, L2. cbn [List.length]. lia.
  - constructor; assumption.
Qed.

Lemma process_with_unknown_networks_witness :
  KnowsNothing (exampleEnv [] exampleChain) /\
  present [Some n2; None; Some n1] <> [] /\
  exists queries w' w'' answer,
    Runs (exampleEnv [] exampleChain) tt
      (process (Options.mk [Some n2; None; Some n1] None))
      (queries
         ++ [Loaded [ {| ancestor := toIdObject n1;
                         descendant := toIdObject n2 |} ] answer])
      w''
      (match answer with
       | inl e => inl e
       | inr results => inr (Some results)
       end) /\
    @exampleEnv [] exampleChain _ w'
      (ResourcesLoad [ {| ancestor := toIdObject n1;
                          descendant := toIdObject n2 |} ]) =
      (w'', answer) /\
    List.length queries = (2 * 2 + 1)%nat /\
    Forall isFirstQueryUnanswered queries.
Proof.
  assert (Hnothing : KnowsNothing (exampleEnv [] exampleChain)).
  { intros w relation networkId tried disableIndex.
    eexists. split; reflexivity. }
  assert (Hpresent : present [Some n2; None; Some n1] <> [])
    by discriminate.
  refine (conj Hnothing (conj Hpresent _)).
  exact (process_with_unknown_networks tt
           (Options.mk [Some n2; None; Some n1] None) Hnothing Hpresent).
Defined.

Lemma searchesFor_queriesAbout relation i flag ids events : forall batch,
  searchesFor relation i flag batch events ->
  In {| id := i |} ids ->
  Forall (queriesAbout ids flag) events.
Proof.
  induction events as [|e events IH]; intros batch Hs Hin; [constructor|].
  destruct e as [r j sent d answer|h answer|inputs answer];
    cbn [searchesFor] in Hs.
  - destruct Hs as (_ & -> & -> & Hrest).
    constructor; [split; [reflexivity | exact Hin] | exact (IH _ Hrest Hin)].
  - destruct Hs as [_ Hrest].
    constructor; [exact I | exact (IH _ Hrest Hin)].
  - contradiction.
Qed.

Lemma SearchLog_queriesAbout relation network flag tried events o ids :
  SearchLog relation network flag tried events o ->
  (forall n, network = Some n -> In n ids) ->
  Forall (queriesAbout ids flag) events.
Proof.
  intros Hshape Hin. destruct network as [n|].
  - eapply searchesFor_queriesAbout.
    + exact (SearchLog_searchesFor Hshape []).
    + specialize (Hin n eq_refl). destruct n. exact Hin.
  - inversion Hshape; subst; try discriminate; constructor.
Qed.

Lemma BatchLog_queriesAbout flag batch genealogies events o :
  BatchLog flag batch genealogies events o ->
  forall ids, (forall n, In n batch -> In n ids) ->
  Forall (queriesAbout ids flag) events.
Proof.
  induction 1 as [genealogies
                 |network rest genealogies events o H1 Hne
                 |network rest genealogies ev1 a ev2 o H1 H2 Hne
                 |network rest genealogies ev1 a ev2 d ev3 o H1 H2 H3 IH];
    intros ids Hsub.
  - constructor.
  - eapply SearchLog_queriesAbout; [exact H1|].
    intros n Hn. inversion Hn; subst. apply Hsub. left. reflexivity.
  - apply Forall_app. split;
      (eapply SearchLog_queriesAbout; [eassumption|];
       intros n Hn; inversion Hn; subst; apply Hsub; left; reflexivity).
  - apply Forall_app. split; [|apply Forall_app; split].
    + eapply SearchLog_queriesAbout; [exact H1|].
      intros n Hn. inversion Hn; subst. apply Hsub. left. reflexivity.
    + eapply SearchLog_queriesAbout; [exact H2|].
      intros n Hn. inversion Hn; subst. apply Hsub. left. reflexivity.
    + apply IH. intros n Hn. apply Hsub. right. exact Hn.
Qed.

Lemma ProcessLog_queriesAbout options events o :
  ProcessLog options events o ->
  Forall (queriesAbout (networks (collectNetworks options))
            (truthy (Options.disableIndex options))) events.
Proof.
  assert (Hearliest : forall n,
             nth_error (networks (collectNetworks options)) 0 = Some n ->
             In n (networks (collectNetworks options)))
    by (intros n Hn; eapply nth_error_In; exact Hn).
  destruct 1 as [Hempty
                |events o Hne H1 Hstop
                |lookup found events o Hne H1 H2 Hstop
                |lookup found searches genealogies Hne H1 H2
                |lookup found searches genealogies answer Hne H1 H2].
  - constructor.
  - eapply SearchLog_queriesAbout; eassumption.
  - apply Forall_app. split.
    + eapply SearchLog_queriesAbout; eassumption.
    + eapply BatchLog_queriesAbout; [exact H2 | auto].
  - apply Forall_app. split.
    + eapply SearchLog_queriesAbout; eassumption.
    + eapply BatchLog_queriesAbout; [exact H2 | auto].
  - apply Forall_app. split; [|apply Forall_app; split].
    + eapply SearchLog_queriesAbout; eassumption.
    + eapply BatchLog_queriesAbout; [exact H2 | auto].
    + repeat constructor.
Qed.

(** X14. In every invocation of [process], in any environment, every store
    query carries the [disableIndex] flag of the options (as its truth
    value) and is about one of the networks [collectNetworks] returned:
    the store is never asked about an absent entry or about a network
    outside the batch. *)
Theorem process_queries_its_batch
  {W : Type} (env : Env W) (w : W) (options : Options.t) :
  Always env w (process options)
    (fun events _ _ =>
       Forall (queriesAbout (networks (collectNetworks options))
                 (truthy (Options.disableIndex options))) events).
Proof.
  eapply Always_weaken; [apply process_shape|].
  intros events w' o Hshape. exact (ProcessLog_queriesAbout Hshape).
Qed.

Lemma BatchLog_isSearch flag batch genealogies events o :
  BatchLog flag batch genealogies events o -> Forall isSearch events.
Proof.
  induction 1 as [genealogies
                 |network rest genealogies events o H1 Hne
                 |network rest genealogies ev1 a ev2 o H1 H2 Hne
                 |network rest genealogies ev1 a ev2 d ev3 o H1 H2 H3 IH].
  - constructor.
  - eapply SearchLog_isSearch. exact H1.
  - apply Forall_app. split; eapply SearchLog_isSearch; eassumption.
  - apply Forall_app. split; [eapply SearchLog_isSearch; exact H1|].
    apply Forall_app. split; [eapply SearchLog_isSearch; exact H2 | exact IH].
Qed.

Lemma BatchLog_size flag batch genealogies events o :
  BatchLog flag batch genealogies events o ->
  forall v, o = Some (inr v) ->
  (List.length v <= List.length genealogies + 2 * List.length batch)%nat.
Proof.
  induction 1 as [genealogies
                 |network rest genealogies events o H1 Hne
                 |network rest genealogies ev1 a ev2 o H1 H2 Hne
                 |network rest genealogies ev1 a ev2 d ev3 o H1 H2 H3 IH];
    intros v Hv.
  - inversion Hv; subst. lia.
  - destruct o as [[?|?]|]; discriminate.
  - destruct o as [[?|?]|]; discriminate.
  - specialize (IH v Hv). rewrite !length_app in IH.
    assert (List.length (upEdge a network) <= 1)%nat
      by (destruct a; cbn; lia).
    assert (List.length (downEdge network d) <= 1)%nat
      by (destruct d; cbn; lia).
    cbn [List.length]. lia.
Qed.

(** X16. The list [process] hands to the load holds at most [3 n - 1]
    edges for a batch with [n] present entries: at most [n - 1] pairwise
    edges and at most two found edges per network. *)
Theorem process_load_size
  {W : Type} (env : Env W) (w : W) (options : Options.t) :
  Always env w (process options)
    (fun events _ _ =>
       forall inputs,
         In inputs (loads events) ->
         (List.length inputs
          <= 3 * List.length (present (Options.networks options)) - 1)%nat).
Proof.
  eapply Always_weaken; [apply process_shape|].
  intros events w' o Hshape inputs Hin.
  destruct Hshape as [Hempty
                     |events o Hne H1 Hstop
                     |lookup found events o Hne H1 H2 Hstop
                     |lookup found searches genealogies Hne H1 H2
                     |lookup found searches genealogies answer Hne H1 H2].
  - destruct Hin.
  - rewrite (isSearch_loads (SearchLog_isSearch H1)) in Hin. destruct Hin.
  - rewrite loads_app, (isSearch_loads (SearchLog_isSearch H1)),
      (isSearch_loads (BatchLog_isSearch H2)) in Hin. destruct Hin.
  - rewrite loads_app, (isSearch_loads (SearchLog_isSearch H1)),
      (isSearch_loads (BatchLog_isSearch H2)) in Hin. destruct Hin.
  - rewrite !loads_app, (isSearch_loads (SearchLog_isSearch H1)),
      (isSearch_loads (BatchLog_isSearch H2)) in Hin.
    destruct Hin as [<-|[]].
    pose proof (BatchLog_size H2 eq_refl) as Hsize.
    rewrite collectNetworks_length in Hsize.
    assert (Hpairs : (List.length (networkGenealogies (collectNetworks options))
                      <= List.length (present (Options.networks options)) - 1)%nat).
    { rewrite <- collectNetworks_length.
      rewrite collectNetworks_genealogies, collectNetworks_networks.
      rewrite pairwise_adjacent, length_map, <- adjacent_length.
      apply filter_length_le. }
    lia.
Qed.

Section RunsInversion.
Context {W : Type} (env : Env W).

Lemma Runs_bind_inv {A B} w (t : itree ProcessE A)
  (k : A -> itree ProcessE B) events w2 b :
  Runs env w (ITree.bind t k) events w2 b ->
  exists ev1 w1 a ev2,
    Runs env w t ev1 w1 a /\
    Runs env w1 (k a) ev2 w2 b /\
    events = ev1 ++ ev2.
Proof.
  intros [fuel Hrun].
  pose proof (run_bind env fuel w t k) as Hb.
  destruct (run env fuel w t) as [[ev1 w1] [a|]] eqn:Ht.
  - destruct Hb as (fuel2 & _ & Heq). rewrite Heq in Hrun.
    destruct (run env fuel2 w1 (k a)) as [[ev2 w2'] o] eqn:Hk.
    inversion Hrun; subst.
    exists ev1, w1, a, ev2.
    split; [exists fuel; exact Ht|]. split; [exists fuel2; exact Hk|].
    reflexivity.
  - rewrite Hb in Hrun. discriminate.
Qed.

Lemma Runs_then_inv {A B} w (m : Process A) (k : A -> Process B)
  events w2 out :
  Runs env w (bind m k) events w2 out ->
  exists ev1 w1 r,
    Runs env w m ev1 w1 r /\
    match r with
    | inl e => events = ev1 /\ w2 = w1 /\ out = inl e
    | inr a =>
        exists ev2, Runs env w1 (k a) ev2 w2 out /\ events = ev1 ++ ev2
    end.
Proof.
  intros H. unfold bind in H. apply Runs_bind_inv in H.
  destruct H as (ev1 & w1 & r & ev2 & Hm & Hk & ->).
  exists ev1, w1, r. split; [exact Hm|].
  destruct r as [e|a].
  - destruct Hk as [fuel Hk]. rewrite run_unfold in Hk. cbn in Hk.
    inversion Hk; subst. rewrite app_nil_r. auto.
  - exists ev2. auto.
Qed.

Lemma Runs_stateless {R} w (t : itree ProcessE R) events w' r :
  Stateless env -> Runs env w t events w' r -> w' = w.
Proof.
  intros Hstateless [fuel Hrun]. revert w t events Hrun.
  induction fuel as [|fuel IH]; intros w t events Hrun;
    rewrite run_unfold in Hrun;
    destruct (observe t) as [r0 | t' | X request k]; try discriminate;
    try (inversion Hrun; subst; reflexivity).
  - exact (IH _ _ _ Hrun).
  - pose proof (Hstateless X w request) as Hw.
    destruct (@env _ w request) as [w1 answer]. cbn [fst] in Hw. subst w1.
    destruct (run env fuel w (k answer)) as [[ev1 w2] o] eqn:E.
    inversion Hrun; subst. exact (IH _ _ _ E).
Qed.

End RunsInversion.

(** X15. [process] searches for an ancestor of the earliest network twice:
    once before the loop, with a result that is not used, and again as
    the first search of the loop.  Against an environment without state,
    the log of a finished invocation over a batch with a present entry
    starts with the log of that search, and, unless the search threw,
    goes on with the same log a second time. *)
Theorem process_repeats_first_search
  {W : Type} (env : Env W) (w w' : W) (options : Options.t)
  (n : IdObject) (rest : list IdObject) (events : list Event)
  (out : Exn + option (list IdObject)) :
  Stateless env ->
  networks (collectNetworks options) = n :: rest ->
  Runs env w (process options) events w' out ->
  exists search r,
    Runs env w
      (findRelation Ancestor (Some n) (Options.disableIndex options))
      search w r /\
    match r with
    | inl e => events = search /\ out = inl e
    | inr _ => exists tail, events = search ++ search ++ tail
    end.
Proof.
  intros Hstateless Hnets Hruns. unfold process in Hruns.
  replace (Z.of_nat (List.length (Options.networks options)) =? 0)
    with false in Hruns.
  2:{ symmetry. apply Z.eqb_neq. intros Hlen.
      assert (Hnone : present (Options.networks options) = [])
        by (destruct (Options.networks options);
            [reflexivity | cbn in Hlen; lia]).
      pose proof (collectNetworks_length options) as Hl.
      rewrite Hnets, Hnone in Hl. discriminate. }
  cbv zeta in Hruns. rewrite Hnets in Hruns. cbn [nth_error] in Hruns.
  apply Runs_then_inv in Hruns.
  destruct Hruns as (search & w1 & r & Hsearch & Hrest).
  pose proof (Runs_stateless Hstateless Hsearch) as ->.
  exists search, r. split; [exact Hsearch|].
  destruct r as [e|a]; [tauto|].
  destruct Hrest as (ev2 & Hloop & ->).
  apply Runs_then_inv in Hloop.
  destruct Hloop as (ev3 & w3 & r3 & Hbatch & Hafter).
  cbn [forEachNetwork] in Hbatch. apply Runs_then_inv in Hbatch.
  destruct Hbatch as (again & w4 & r4 & Hagain & Hbody).
  destruct (Runs_det Hsearch Hagain) as (<- & _ & <-).
  destruct Hbody as (ev5 & _ & ->).
  destruct r3 as [e|genealogies].
  - destruct Hafter as (-> & _). exists ev5. reflexivity.
  - destruct Hafter as (ev6 & _ & ->). exists (ev5 ++ ev6).
    rewrite <- app_assoc. reflexivity.
Qed.

Lemma process_repeats_first_search_witness :
  Stateless (ancestorsEnv [n1] exampleChain) /\
  networks (collectNetworks (Options.mk [Some n2] None)) =
    [toIdObject n2] /\
  Runs (ancestorsEnv [n1] exampleChain) tt
    (process (Options.mk [Some n2] None))
    [Queried Ancestor "n2" [] false
       (inr {| candidates := [n1]; alreadyTried := ["n1"] |});
     Asked 100 (inr (blockWith "0xaa"));
     Queried Ancestor "n2" [] false
       (inr {| candidates := [n1]; alreadyTried := ["n1"] |});
     Asked 100 (inr (blockWith "0xaa"));
     Queried Descendant "n2" [] false
       (inr {| candidates := []; alreadyTried := [] |});
     Loaded [ {| ancestor := toIdObject n1; descendant := toIdObject n2 |} ]
       (inr [ {| id := "n1->n2" |} ])]
    tt (inr (Some [ {| id := "n1->n2" |} ])) /\
  exists search r,
    Runs (ancestorsEnv [n1] exampleChain) tt
      (findRelation Ancestor (Some (toIdObject n2)) None) search tt r /\
    match r with
    | inl e => False
    | inr _ =>
        exists tail,
          [Queried Ancestor "n2" [] false
             (inr {| candidates := [n1]; alreadyTried := ["n1"] |});
           Asked 100 (inr (blockWith "0xaa"));
           Queried Ancestor "n2" [] false
             (inr {| candidates := [n1]; alreadyTried := ["n1"] |});
           Asked 100 (inr (blockWith "0xaa"));
           Queried Descendant "n2" [] false
             (inr {| candidates := []; alreadyTried := [] |});
           Loaded
             [ {| ancestor := toIdObject n1; descendant := toIdObject n2 |} ]
             (inr [ {| id := "n1->n2" |} ])]
          = search ++ search ++ tail
    end.
Proof.
  assert (Hstateless : Stateless (ancestorsEnv [n1] exampleChain))
    by (intros X w request; destruct w, request; reflexivity).
  assert (Hnets : networks (collectNetworks (Options.mk [Some n2] None)) =
                  [toIdObject n2]) by reflexivity.
  assert (Hruns : Runs (ancestorsEnv [n1] exampleChain) tt
                    (process (Options.mk [Some n2] None))
                    [Queried Ancestor "n2" [] false
                       (inr {| candidates := [n1]; alreadyTried := ["n1"] |});
                     Asked 100 (inr (blockWith "0xaa"));
                     Queried Ancestor "n2" [] false
                       (inr {| candidates := [n1]; alreadyTried := ["n1"] |});
                     Asked 100 (inr (blockWith "0xaa"));
                     Queried Descendant "n2" [] false
                       (inr {| candidates := []; alreadyTried := [] |});
                     Loaded
                       [ {| ancestor := toIdObject n1;
                            descendant := toIdObject n2 |} ]
                       (inr [ {| id := "n1->n2" |} ])]
                    tt (inr (Some [ {| id := "n1->n2" |} ])))
    by (exists 6%nat; vm_compute; reflexivity).
  refine (conj Hstateless (conj Hnets (conj Hruns _))).
  destruct (@process_repeats_first_search _ _ _ _ _ _ _ _ _
              Hstateless Hnets Hruns)
    as (search & r & Hsearch & Hshape).
  exists search, r. split; [exact Hsearch|].
  destruct r as [e|a]; [|exact Hshape].
  destruct Hshape as [_ Habs]. discriminate.
Defined.

Lemma confirmedEdge_more batch events e batch' before after :
  confirmedEdge batch events e ->
  (forall n, In n batch -> In n batch') ->
  confirmedEdge batch' (before ++ events ++ after) e.
Proof.
  intros (relation & n & sent & flag & r & c & response
          & Hn & Hq & Hc & Ha & Hconf & He) Hsub.
  exists relation, n, sent, flag, r, c, response.
  repeat split; auto;
    apply in_or_app; right; apply in_or_app; left; assumption.
Qed.

Lemma found_edge_confirmed relation n flag events found :
  SearchLog relation (Some n) flag [] events (Some (inr (Some found))) ->
  confirmedEdge [n] events
    match relation with
    | Ancestor => {| ancestor := found; descendant := n |}
    | Descendant => {| ancestor := n; descendant := found |}
    end.
Proof.
  intros Hshape. apply SearchLog_confirmed in Hshape.
  destruct Hshape as (n' & before & sent & r & refusals & c & response
                      & Hn & -> & Hc & -> & Hconf & _).
  inversion Hn; subst n'.
  exists relation, n, sent, flag, r, c, response.
  repeat split; auto.
  - left. reflexivity.
  - apply in_or_app. right. left. reflexivity.
  - apply in_or_app. right. right. apply in_or_app. right. left. reflexivity.
Qed.

Lemma BatchLog_confirmed flag batch genealogies events o :
  BatchLog flag batch genealogies events o ->
  forall v, o = Some (inr v) ->
  exists cross,
    v = genealogies ++ cross /\
    Forall (confirmedEdge batch events) cross.
Proof.
  induction 1 as [genealogies
                 |network rest genealogies events o H1 Hne
                 |network rest genealogies ev1 a ev2 o H1 H2 Hne
                 |network rest genealogies ev1 a ev2 d ev3 o H1 H2 H3 IH];
    intros v Hv.
  - inversion Hv; subst. exists []. rewrite app_nil_r. split; constructor.
  - destruct o as [[?|?]|]; discriminate.
  - destruct o as [[?|?]|]; discriminate.
  - destruct (IH v Hv) as (cross & -> & Hcross).
    exists (upEdge a network ++ downEdge network d ++ cross).
    split; [rewrite <- !app_assoc; reflexivity|].
    apply Forall_app. split; [|apply Forall_app; split].
    + destruct a as [found|]; [|constructor].
      constructor; [|constructor].
      apply (@confirmedEdge_more [network] ev1 _ (network :: rest)
               [] (ev2 ++ ev3)).
      * exact (found_edge_confirmed H1).
      * intros n [<-|[]]. left. reflexivity.
    + destruct d as [found|]; [|constructor].
      constructor; [|constructor].
      apply (@confirmedEdge_more [network] ev2 _ (network :: rest) ev1 ev3).
      * exact (found_edge_confirmed H2).
      * intros n [<-|[]]. left. reflexivity.
    + eapply Forall_impl; [|exact Hcross]. intros e He.
      replace (ev1 ++ ev2 ++ ev3) with ((ev1 ++ ev2) ++ ev3 ++ [])
        by (rewrite app_nil_r, app_assoc; reflexivity).
      apply (@confirmedEdge_more rest ev3 e (network :: rest)
               (ev1 ++ ev2) []); [exact He|].
      intros n Hn. right. exact Hn.
Qed.

(** X17. [process] loads only edges that are pairwise edges of the batch
    or were confirmed on the chain.  In every invocation and environment,
    the list handed to the load is the pairwise edges followed by edges
    that each join a network of the batch with a candidate the store
    returned to a query about that network and whose recorded hash a
    chain answer of the same log reported at its height; the candidate is
    on the ancestor side for a query for ancestors and on the descendant
    side for a query for descendants. *)
Theorem process_loads_confirmed_edges
  {W : Type} (env : Env W) (w : W) (options : Options.t) :
  Always env w (process options)
    (fun events _ _ =>
       forall inputs,
         In inputs (loads events) ->
         exists cross,
           inputs = networkGenealogies (collectNetworks options) ++ cross /\
           Forall (confirmedEdge (networks (collectNetworks options)) events)
                  cross).
Proof.
  eapply Always_weaken; [apply process_shape|].
  intros events w' o Hshape inputs Hin.
  destruct Hshape as [Hempty
                     |events o Hne H1 Hstop
                     |lookup found events o Hne H1 H2 Hstop
                     |lookup found searches genealogies Hne H1 H2
                     |lookup found searches genealogies answer Hne H1 H2].
  - destruct Hin.
  - rewrite (isSearch_loads (SearchLog_isSearch H1)) in Hin. destruct Hin.
  - rewrite loads_app, (isSearch_loads (SearchLog_isSearch H1)),
      (isSearch_loads (BatchLog_isSearch H2)) in Hin. destruct Hin.
  - rewrite loads_app, (isSearch_loads (SearchLog_isSearch H1)),
      (isSearch_loads (BatchLog_isSearch H2)) in Hin. destruct Hin.
  - rewrite !loads_app, (isSearch_loads (SearchLog_isSearch H1)),
      (isSearch_loads (BatchLog_isSearch H2)) in Hin.
    destruct Hin as [<-|[]].
    destruct (BatchLog_confirmed H2 eq_refl) as (cross & -> & Hcross).
    exists cross. split; [reflexivity|].
    eapply Forall_impl; [|exact Hcross]. intros e He.
    apply (@confirmedEdge_more (networks (collectNetworks options))
             searches e (networks (collectNetworks options)) lookup
             [Loaded (networkGenealogies (collectNetworks options) ++ cross)
                answer]); auto.
Qed.
